(** * Residuals, Jacobians and ingestion of the vslam bundle adjuster

    A shallow embedding of
      - [sba/src/proj.cpp]            (class [Proj]: residual and Jacobians),
      - [sba/src/nodes/sba_node.cpp]  (class [SBANode]: index remapping),
      - [frame_image_proc/src/nodelets/frame_disparity.cpp]
                                       ([FrameDisparityNodelet::publishFrame]).

    The C++ code computes on [double].  Every function below is written once,
    over an interface [Arith] of the operations the code applies to numbers,
    and is run on two instances: IEEE 754 binary64 ([binary64], the type the
    program really uses, with its infinities, NaN and signed zeros) and the
    rationals ([exact], arithmetic without rounding). *)

From Stdlib Require Import ZArith List Bool Lia Ring QArith Qcanon.
From Stdlib Require Import Floats.SpecFloat.
From stdpp Require Import gmap.

Import ListNotations.
Local Open Scope Z_scope.

(** ** Numbers *)

(** What the sources do with a [double] (or a [float]): literals, the four
    operations, unary minus, [<=], [>], [isnan], and the conversion to [int]
    that C++ inserts where a [float] is passed for an [int] parameter. *)
Class Arith (D : Type) : Type := {
  d0 : D;                       (* 0.0 *)
  d1 : D;                       (* 1.0 *)
  d10 : D;                      (* 10. *)
  dadd : D -> D -> D;
  dsub : D -> D -> D;
  dmul : D -> D -> D;
  ddiv : D -> D -> D;
  dopp : D -> D;
  dleb : D -> D -> bool;        (* a <= b *)
  dltb : D -> D -> bool;        (* a < b, also used for b > a *)
  disnan : D -> bool;           (* isnan(a) *)
  dtoint : D -> Z               (* (int)a *)
}.

Declare Scope D_scope.
Delimit Scope D_scope with D.
Infix "+" := dadd : D_scope.
Infix "-" := dsub : D_scope.
Infix "*" := dmul : D_scope.
Infix "/" := ddiv : D_scope.
Notation "- x" := (dopp x) : D_scope.
Infix "<=?" := dleb : D_scope.
Infix "<?" := dltb : D_scope.

(** *** IEEE 754 binary64 *)

Module B64.
Definition prec : Z := 53.
Definition emax : Z := 1024.

Definition pzero : spec_float := S754_zero false.
Definition nzero : spec_float := S754_zero true.
Definition pinf : spec_float := S754_infinity false.
Definition ninf : spec_float := S754_infinity true.
Definition nan : spec_float := S754_nan.

(** The double nearest to the integer [z]. *)
Definition of_Z (z : Z) : spec_float := binary_normalize prec emax z 0 false.

Definition one : spec_float := Eval vm_compute in of_Z 1.
Definition ten : spec_float := Eval vm_compute in of_Z 10.

Definition is_nan (x : spec_float) : bool :=
  match x with S754_nan => true | _ => false end.

Definition is_finite (x : spec_float) : bool :=
  match x with S754_zero _ | S754_finite _ _ _ => true | _ => false end.

(** Equal, or zeros of either sign. *)
Definition same_up_to_zero_sign (x y : spec_float) : Prop :=
  x = y \/ (exists s t, x = S754_zero s /\ y = S754_zero t).

(** No coefficient of the matrix is finite. *)
Definition none_finite (M : list (list spec_float)) : bool :=
  forallb (forallb (fun x => negb (is_finite x))) M.

(** Conversion to a 32-bit [int]: truncation toward zero.  C++ leaves the
    conversion of NaN, of an infinity and of a value out of range
    undefined; x86 yields [INT_MIN] there, which is what we take. *)
Definition int_min : Z := - 2 ^ 31.
Definition to_int (x : spec_float) : Z :=
  match x with
  | S754_zero _ => 0
  | S754_finite s m e =>
      let a := match e with
               | Zneg k => Z.shiftr (Zpos m) (Zpos k)
               | _ => Z.shiftl (Zpos m) e
               end in
      let z := if s then - a else a in
      if (int_min <=? z) && (z <? 2 ^ 31) then z else int_min
  | _ => int_min
  end.
End B64.

#[export] Instance binary64 : Arith spec_float := {|
  d0 := B64.pzero;
  d1 := B64.one;
  d10 := B64.ten;
  dadd := SFadd B64.prec B64.emax;
  dsub := SFsub B64.prec B64.emax;
  dmul := SFmul B64.prec B64.emax;
  ddiv := SFdiv B64.prec B64.emax;
  dopp := SFopp;
  dleb := SFleb;
  dltb := SFltb;
  disnan := B64.is_nan;
  dtoint := B64.to_int
|}.

(** *** Rationals *)

Module Exact.
Definition of_Z (z : Z) : Qc := Q2Qc (inject_Z z).
Definition leb (a b : Qc) : bool := Qle_bool a b.
Definition ltb (a b : Qc) : bool := negb (Qle_bool b a).
Definition to_int (a : Qc) : Z := Z.quot (Qnum a) (Zpos (Qden a)).
End Exact.

#[export] Instance exact : Arith Qc := {|
  d0 := Exact.of_Z 0;
  d1 := Exact.of_Z 1;
  d10 := Exact.of_Z 10;
  dadd := Qcplus;
  dsub := Qcminus;
  dmul := Qcmult;
  ddiv := Qcdiv;
  dopp := Qcopp;
  dleb := Exact.leb;
  dltb := Exact.ltb;
  disnan := fun _ => false;
  dtoint := Exact.to_int
|}.

(** ** The fragment of Eigen the sources use

    Fixed-size vectors and matrices, row-major as lists of rows; [coeff M i j]
    is [M(i,j)].  All indices in the sources are literals within the declared
    sizes. *)

Module Eigen.
(** [v / s] is evaluated coefficient by coefficient by a functor of Eigen
    (Eigen/src/Core/Functors.h), which is not among the sources and is not
    the same in every release: Eigen 2, the release whose [start] the
    sources call, computes [1/s] once and multiplies every coefficient by
    it; other releases divide every coefficient by [s].  On doubles the two
    can differ in the last bit.  [scalar_quotient1 x s] is what the functor
    yields for the coefficient [x]. *)
Class Quotient1 (D : Type) : Type := {
  scalar_quotient1 : D -> D -> D
}.

Section Eigen.
Context {D : Type} {A : Arith D}.
Local Open Scope D_scope.

Local Abbreviation Vec := (list D).
Local Abbreviation Mat := (list (list D)).

(** [v(i)] and [M(i,j)] *)
Definition at_ (v : Vec) (i : nat) : D := nth i v d0.
Definition coeff (M : Mat) (i j : nat) : D := nth j (nth i M []) d0.

(** [M.col(j)] *)
Definition col (M : Mat) (j : nat) : Vec := map (fun r => at_ r j) M.

(** [v.start<n>()], [v.start(n)] *)
Definition start (n : nat) (v : Vec) : Vec := firstn n v.

(** [-v] *)
Definition vopp (v : Vec) : Vec := map dopp v.

(** [a - b] *)
Fixpoint vsub (a b : Vec) : Vec :=
  match a, b with
  | x :: a', y :: b' => (x - y) :: vsub a' b'
  | _, _ => []
  end.

(** [v * s] *)
Definition vscale (v : Vec) (s : D) : Vec := map (fun x => x * s) v.

(** The two functors: multiplication by the reciprocal, and division. *)
Definition by_reciprocal : Quotient1 D :=
  {| scalar_quotient1 := fun x s => x * (d1 / s) |}.

Definition by_division : Quotient1 D :=
  {| scalar_quotient1 := fun x s => x / s |}.

(** [v / s] *)
Definition vdiv {Q : Quotient1 D} (v : Vec) (s : D) : Vec :=
  map (fun x => scalar_quotient1 x s) v.

(** Inner product as Eigen's unrolled coefficient product evaluates it:
    [a0*b0], then [+= ak*bk] for k = 1, 2, ... *)
Fixpoint dot_from (acc : D) (a b : Vec) : D :=
  match a, b with
  | x :: a', y :: b' => dot_from (acc + x * y) a' b'
  | _, _ => acc
  end.

Definition dot (a b : Vec) : D :=
  match a, b with
  | x :: a', y :: b' => dot_from (x * y) a' b'
  | _, _ => d0
  end.

(** [M * v] *)
Definition mulv (M : Mat) (v : Vec) : Vec := map (fun r => dot r v) M.

(** [M.transpose()] of a matrix with [n] columns *)
Definition transpose (n : nat) (M : Mat) : Mat :=
  map (fun j => col M j) (seq 0 n).

(** [M * N] where [N] has [n] columns *)
Definition mul (n : nat) (M N : Mat) : Mat :=
  map (fun r => map (fun j => dot r (col N j)) (seq 0 n)) M.

(** [v.squaredNorm()] *)
Definition squaredNorm (v : Vec) : D := dot v v.
End Eigen.
End Eigen.

Notation "v .[ i ]" := (Eigen.at_ v i) (at level 1, left associativity, format "v .[ i ]") : D_scope.

(** ** sba/src/proj.cpp *)

(** What the sources take from headers that are not among them:
    [qScale] (sba/node.h) is the factor applied to quaternion derivatives;
    [DEBUG] is the preprocessor symbol guarding the extra checks;
    [mono_err2] is the coefficient [err(2)] after the mono statement
    [err = p1.start(2)/p1(2)], whose right-hand side has two coefficients
    while [err] has three (sba/proj.h): the source does not determine it. *)
Class Build (D : Type) : Type := {
  qScale : D;
  DEBUG : bool;
  mono_err2 : list D -> D
}.

Module Sba.
Section Proj.
Context {D : Type} {A : Arith D} {B : Build D} {Q : Eigen.Quotient1 D}.
Local Open Scope D_scope.
Import Eigen.

Local Abbreviation Vec := (list D).
Local Abbreviation Mat := (list (list D)).

(** The members of [Node] (sba/node.h) that proj.cpp reads. *)
Record Node : Type := {
  trans : Vec;        (* Vector4d: translation, homogeneous *)
  w2n : Mat;          (* 3x4: world to node *)
  w2i : Mat;          (* 3x4: world to image *)
  Kcam : Mat;         (* 3x3: intrinsics *)
  baseline : D;
  dRdx : Mat;         (* 3x3 *)
  dRdy : Mat;
  dRdz : Mat
}.

(** [typedef Eigen::Vector4d Point] *)
Definition Point : Type := Vec.

Record Proj : Type := {
  ndi : Z;
  kp : Vec;           (* Vector3d *)
  err : Vec;          (* Vector3d *)
  stereo : bool;
  isValid : bool;
  Hpp : Mat;          (* 3x3 *)
  Hcc : Mat;          (* 6x6 *)
  Hpc : Mat;          (* 3x6 *)
  JcTE : Vec;         (* 6 *)
  Bp : Vec            (* 3 *)
}.

(** The constructors leave [err] and the blocks uninitialised; they are
    empty here until [calcErr] and [setJacobians] assign them. *)
Definition Proj_ (ci : Z) (q : Vec) (st : bool) : Proj :=
  {| ndi := ci; kp := q; err := []; stereo := st; isValid := true;
     Hpp := []; Hcc := []; Hpc := []; JcTE := []; Bp := [] |}.

Definition Proj_mono (ci : Z) (q : Vec) : Proj :=
  {| ndi := ci; kp := [q.[0]; q.[1]; d0]; err := []; stereo := false; isValid := true;
     Hpp := []; Hcc := []; Hpc := []; JcTE := []; Bp := [] |}.

Definition with_err (p : Proj) (e : Vec) : Proj :=
  {| ndi := ndi p; kp := kp p; err := e; stereo := stereo p; isValid := isValid p;
     Hpp := Hpp p; Hcc := Hcc p; Hpc := Hpc p; JcTE := JcTE p; Bp := Bp p |}.

Definition with_blocks (p : Proj) (hpp hcc hpc : Mat) (jcte bp : Vec) : Proj :=
  {| ndi := ndi p; kp := kp p; err := err p; stereo := stereo p; isValid := isValid p;
     Hpp := hpp; Hcc := hcc; Hpc := hpc; JcTE := jcte; Bp := bp |}.

Definition getErrSquaredNorm (p : Proj) : D :=
  if stereo p then squaredNorm (err p) else squaredNorm (start 2 (err p)).

(** The locals [ipz2], [jacc] (2x6) and [jacp] (2x3) of
    [Proj::setJacobiansMono_], lines 50-110. *)
Definition jacobiansMono (nd : Node) (pt : Point) : D * Mat * Mat :=
  let pc := mulv (w2n nd) pt in
  let px := pc.[0] in
  let py := pc.[1] in
  let pz := pc.[2] in
  let ipz2 := d1 / (pz * pz) in
  let ipz2fx := ipz2 * coeff (Kcam nd) 0 0 in
  let ipz2fy := ipz2 * coeff (Kcam nd) 1 1 in
  let ipz2fxq := qScale * ipz2fx in
  let ipz2fyq := qScale * ipz2fy in
  let pwt := start 3 (vsub pt (trans nd)) in
  (* dx *)
  let dp := mulv (dRdx nd) pwt in
  let jacc03 := (pz * dp.[0] - px * dp.[2]) * ipz2fxq in
  let jacc13 := (pz * dp.[1] - py * dp.[2]) * ipz2fyq in
  (* dy *)
  let dp := mulv (dRdy nd) pwt in
  let jacc04 := (pz * dp.[0] - px * dp.[2]) * ipz2fxq in
  let jacc14 := (pz * dp.[1] - py * dp.[2]) * ipz2fyq in
  (* dz *)
  let dp := mulv (dRdz nd) pwt in
  let jacc05 := (pz * dp.[0] - px * dp.[2]) * ipz2fxq in
  let jacc15 := (pz * dp.[1] - py * dp.[2]) * ipz2fyq in
  (* d(t) *)
  let dp := vopp (col (w2n nd) 0) in
  let jacc00 := (pz * dp.[0] - px * dp.[2]) * ipz2fx in
  let jacc10 := (pz * dp.[1] - py * dp.[2]) * ipz2fy in
  let dp := vopp (col (w2n nd) 1) in
  let jacc01 := (pz * dp.[0] - px * dp.[2]) * ipz2fx in
  let jacc11 := (pz * dp.[1] - py * dp.[2]) * ipz2fy in
  let dp := vopp (col (w2n nd) 2) in
  let jacc02 := (pz * dp.[0] - px * dp.[2]) * ipz2fx in
  let jacc12 := (pz * dp.[1] - py * dp.[2]) * ipz2fy in
  (* point parameters *)
  let dp := col (w2n nd) 0 in
  let jacp00 := (pz * dp.[0] - px * dp.[2]) * ipz2fx in
  let jacp10 := (pz * dp.[1] - py * dp.[2]) * ipz2fy in
  let dp := col (w2n nd) 1 in
  let jacp01 := (pz * dp.[0] - px * dp.[2]) * ipz2fx in
  let jacp11 := (pz * dp.[1] - py * dp.[2]) * ipz2fy in
  let dp := col (w2n nd) 2 in
  let jacp02 := (pz * dp.[0] - px * dp.[2]) * ipz2fx in
  let jacp12 := (pz * dp.[1] - py * dp.[2]) * ipz2fy in
  (ipz2,
   [[jacc00; jacc01; jacc02; jacc03; jacc04; jacc05];
    [jacc10; jacc11; jacc12; jacc13; jacc14; jacc15]],
   [[jacp00; jacp01; jacp02];
    [jacp10; jacp11; jacp12]]).

(** The loop of lines 113-115 and 221-223: is [jacc(i,j)] NaN for some
    [i < 2], [j < 6]? *)
Definition nan_in_jacc (jacc : Mat) : bool :=
  existsb (fun i => existsb (fun j => disnan (coeff jacc i j)) (seq 0 6)) (seq 0 2).

(** [Proj::setJacobiansMono_].  [None] is the store through the null
    pointer on lines 64, 115, 162 and 223, which ends the process. *)
Definition setJacobiansMono_ (nd : Node) (pt : Point) (p : Proj) : option Proj :=
  let '(ipz2, jacc, jacp) := jacobiansMono nd pt in
  if disnan ipz2 then None
  else if DEBUG && nan_in_jacc jacc then None
  else
    Some (with_blocks p
            (mul 3 (transpose 3 jacp) jacp)
            (mul 6 (transpose 6 jacc) jacc)
            (mul 6 (transpose 3 jacp) jacc)
            (mulv (transpose 6 jacc) (start 2 (err p)))
            (mulv (transpose 3 jacp) (start 2 (err p)))).

(** [Proj::calcErrMono_] *)
Definition calcErrMono_ (nd : Node) (pt : Point) (p : Proj) : Proj * D :=
  let p1 := mulv (w2i nd) pt in
  let err := vdiv (start 2 p1) p1.[2] ++ [mono_err2 p1] in
  if p1.[2] <=? d0 then
    (with_err p [d0; d0; d0], d0)
  else
    let err := vsub err (kp p) in
    (with_err p err, squaredNorm (start 2 err)).

(** The locals [ipz2], [jacc] (3x6) and [jacp] (3x3) of
    [Proj::setJacobiansStereo_], lines 148-218. *)
Definition jacobiansStereo (nd : Node) (pt : Point) : D * Mat * Mat :=
  let pc := mulv (w2n nd) pt in
  let px := pc.[0] in
  let py := pc.[1] in
  let pz := pc.[2] in
  let ipz2 := d1 / (pz * pz) in
  let ipz2fx := ipz2 * coeff (Kcam nd) 0 0 in
  let ipz2fy := ipz2 * coeff (Kcam nd) 1 1 in
  let b := baseline nd in
  let ipz2fxq := qScale * ipz2fx in
  let ipz2fyq := qScale * ipz2fy in
  let pwt := start 3 (vsub pt (trans nd)) in
  (* dx *)
  let dp := mulv (dRdx nd) pwt in
  let jacc03 := (pz * dp.[0] - px * dp.[2]) * ipz2fxq in
  let jacc13 := (pz * dp.[1] - py * dp.[2]) * ipz2fyq in
  let jacc23 := (pz * dp.[0] - (px - b) * dp.[2]) * ipz2fxq in
  (* dy *)
  let dp := mulv (dRdy nd) pwt in
  let jacc04 := (pz * dp.[0] - px * dp.[2]) * ipz2fxq in
  let jacc14 := (pz * dp.[1] - py * dp.[2]) * ipz2fyq in
  let jacc24 := (pz * dp.[0] - (px - b) * dp.[2]) * ipz2fxq in
  (* dz *)
  let dp := mulv (dRdz nd) pwt in
  let jacc05 := (pz * dp.[0] - px * dp.[2]) * ipz2fxq in
  let jacc15 := (pz * dp.[1] - py * dp.[2]) * ipz2fyq in
  let jacc25 := (pz * dp.[0] - (px - b) * dp.[2]) * ipz2fxq in
  (* d(t) *)
  let dp := vopp (col (w2n nd) 0) in
  let jacc00 := (pz * dp.[0] - px * dp.[2]) * ipz2fxq in
  let jacc10 := (pz * dp.[1] - py * dp.[2]) * ipz2fy in
  let jacc20 := (pz * dp.[0] - (px - b) * dp.[2]) * ipz2fxq in
  let dp := vopp (col (w2n nd) 1) in
  let jacc01 := (pz * dp.[0] - px * dp.[2]) * ipz2fxq in
  let jacc11 := (pz * dp.[1] - py * dp.[2]) * ipz2fy in
  let jacc21 := (pz * dp.[0] - (px - b) * dp.[2]) * ipz2fxq in
  let dp := vopp (col (w2n nd) 2) in
  let jacc02 := (pz * dp.[0] - px * dp.[2]) * ipz2fxq in
  let jacc12 := (pz * dp.[1] - py * dp.[2]) * ipz2fy in
  let jacc22 := (pz * dp.[0] - (px - b) * dp.[2]) * ipz2fxq in
  (* point parameters *)
  let dp := col (w2n nd) 0 in
  let jacp00 := (pz * dp.[0] - px * dp.[2]) * ipz2fxq in
  let jacp10 := (pz * dp.[1] - py * dp.[2]) * ipz2fy in
  let jacp20 := (pz * dp.[0] - (px - b) * dp.[2]) * ipz2fxq in
  let dp := col (w2n nd) 1 in
  let jacp01 := (pz * dp.[0] - px * dp.[2]) * ipz2fxq in
  let jacp11 := (pz * dp.[1] - py * dp.[2]) * ipz2fy in
  let jacp21 := (pz * dp.[0] - (px - b) * dp.[2]) * ipz2fxq in
  let dp := col (w2n nd) 2 in
  let jacp02 := (pz * dp.[0] - px * dp.[2]) * ipz2fxq in
  let jacp12 := (pz * dp.[1] - py * dp.[2]) * ipz2fy in
  let jacp22 := (pz * dp.[0] - (px - b) * dp.[2]) * ipz2fxq in
  (ipz2,
   [[jacc00; jacc01; jacc02; jacc03; jacc04; jacc05];
    [jacc10; jacc11; jacc12; jacc13; jacc14; jacc15];
    [jacc20; jacc21; jacc22; jacc23; jacc24; jacc25]],
   [[jacp00; jacp01; jacp02];
    [jacp10; jacp11; jacp12];
    [jacp20; jacp21; jacp22]]).

(** [Proj::setJacobiansStereo_] *)
Definition setJacobiansStereo_ (nd : Node) (pt : Point) (p : Proj) : option Proj :=
  let '(ipz2, jacc, jacp) := jacobiansStereo nd pt in
  if disnan ipz2 then None
  else if DEBUG && nan_in_jacc jacc then None
  else
    Some (with_blocks p
            (mul 3 (transpose 3 jacp) jacp)
            (mul 6 (transpose 6 jacc) jacc)
            (mul 6 (transpose 3 jacp) jacc)
            (mulv (transpose 6 jacc) (err p))
            (mulv (transpose 3 jacp) (err p))).

(** [Proj::calcErrStereo_] *)
Definition calcErrStereo_ (nd : Node) (pt : Point) (p : Proj) : Proj * D :=
  let p1 := mulv (w2i nd) pt in
  let p2 := mulv (w2n nd) pt in
  let pb := [baseline nd; d0; d0] in
  let invp1 := d1 / p1.[2] in
  let err01 := vscale (start 2 p1) invp1 in
  let p2 := mulv (Kcam nd) (vsub p2 pb) in
  let err := err01 ++ [p2.[0] / p2.[2]] in
  if p1.[2] <=? d0 then
    (with_err p [d0; d0; d0], d0)
  else
    let err := vsub err (kp p) in
    (with_err p err, squaredNorm err).

(** [Proj::setJacobians] *)
Definition setJacobians (nd : Node) (pt : Point) (p : Proj) : option Proj :=
  if stereo p then setJacobiansStereo_ nd pt p else setJacobiansMono_ nd pt p.

(** [Proj::calcErr] *)
Definition calcErr (nd : Node) (pt : Point) (p : Proj) : Proj * D :=
  if stereo p then calcErrStereo_ nd pt p else calcErrMono_ nd pt p.

(** The Jacobians [setJacobians] builds for [p]. *)
Definition jacobians (nd : Node) (pt : Point) (p : Proj) : D * Mat * Mat :=
  if stereo p then jacobiansStereo nd pt else jacobiansMono nd pt.

Definition jacc (nd : Node) (pt : Point) (p : Proj) : Mat :=
  snd (fst (jacobians nd pt p)).

Definition jacp (nd : Node) (pt : Point) (p : Proj) : Mat :=
  snd (jacobians nd pt p).

(** The third homogeneous coordinate of the point in the image, [p1(2)]
    of [calcErr]. *)
Definition depth (nd : Node) (pt : Point) : D := (mulv (w2i nd) pt).[2].

(** The local [ipz2fx] of lines 66 and 164, the factor that lines 67 and
    167 multiply by [qScale]. *)
Definition ipz2fx (nd : Node) (pt : Point) : D :=
  let pc := mulv (w2n nd) pt in
  let pz := pc.[2] in
  let ipz2 := d1 / (pz * pz) in
  ipz2 * coeff (Kcam nd) 0 0.

Record Track : Type := {
  point : Point;
  projections : list Proj
}.
End Proj.
Arguments Node : clear implicits.
Arguments Proj : clear implicits.
Arguments Track : clear implicits.
End Sba.

(** ** sba/src/nodes/sba_node.cpp *)

Module SbaNode.
Section SBANode.
Context {D : Type} {A : Arith D} {B : Build D}.
Import Eigen Sba.

Local Abbreviation Vec := (list D).

(** *** Messages (sba/Frame.h, generated; the fields the node reads) *)

Record CameraNode : Type := {
  cn_index : Z;
  translation_x : D; translation_y : D; translation_z : D;
  rotation_x : D; rotation_y : D; rotation_z : D; rotation_w : D;
  fx : D; fy : D; cx : D; cy : D;
  cn_baseline : D;
  fixed : bool
}.

Record WorldPoint : Type := {
  wp_index : Z;
  wp_x : D; wp_y : D; wp_z : D; wp_w : D
}.

Record Projection : Type := {
  camindex : Z;
  pointindex : Z;
  u : D; v : D; d : D;
  pr_stereo : bool
}.

Record Frame : Type := {
  fr_nodes : list CameraNode;
  fr_points : list WorldPoint;
  fr_projections : list Projection
}.

Record CamParams : Type := {
  cp_fx : D; cp_fy : D; cp_cx : D; cp_cy : D; cp_tx : D
}.

(** *** The graph, [class SysSBA] (sba/sba.h) *)

Record SysSBA : Type := {
  nodes : list (Node D);
  tracks : list (Track D)
}.

(** How [SysSBA::addNode] builds a [Node], with its cached matrices, from
    a translation, the four arguments given to the quaternion's
    constructor and camera parameters: sba/node.h and sba/sba.cpp are not
    among the sources, and nothing below depends on it. *)
Variable mkNode : Vec -> Vec -> CamParams -> bool -> Node D.

(** Modelled from the spec: [SysSBA::addNode] (sba/sba.cpp is missing),
    "appends a new Node; returns a dense internal index". *)
Definition SysSBA_addNode (s : SysSBA) (t q : Vec) (cp : CamParams) (fixed : bool)
  : SysSBA * Z :=
  ({| nodes := nodes s ++ [mkNode t q cp fixed]; tracks := tracks s |},
   Z.of_nat (length (nodes s))).

(** Modelled from the spec: [SysSBA::addPoint] (sba/sba.cpp is missing),
    "appends a new Track wrapping a new Point". *)
Definition SysSBA_addPoint (s : SysSBA) (p : Vec) : SysSBA * Z :=
  ({| nodes := nodes s;
      tracks := tracks s ++ [{| point := p; projections := [] |}] |},
   Z.of_nat (length (tracks s))).

Definition attach (pr : Proj D) (t : Track D) : Track D :=
  {| point := point t; projections := projections t ++ [pr] |}.

(** Modelled from the spec: [SysSBA::addProj] (sba/sba.cpp is missing),
    "validates both indices are within current bounds; on success
    attaches a new Projection to the Track at internalPointIndex
    referencing the node at internalCameraIndex; on failure ... drops the
    observation without mutating state". *)
Definition SysSBA_addProj (s : SysSBA) (ci pi : Z) (q : Vec) (st : bool) : SysSBA :=
  if (0 <=? ci) && (ci <? Z.of_nat (length (nodes s)))
     && (0 <=? pi) && (pi <? Z.of_nat (length (tracks s)))
  then {| nodes := nodes s;
          tracks := alter (attach (Proj_ ci q st)) (Z.to_nat pi) (tracks s) |}
  else s.

(** *** Integer conversions of C++ *)

(** to [unsigned int] *)
Definition to_unsigned (z : Z) : Z := z mod 2 ^ 32.

(** to [int] *)
Definition to_int (z : Z) : Z :=
  let w := z mod 2 ^ 32 in if w <? 2 ^ 31 then w else w - 2 ^ 32.

(** [m[k]] of [std::map<unsigned int, unsigned int>] read as an rvalue:
    a key that is absent is first inserted with the value 0. *)
Definition subscript (m : gmap Z Z) (k : Z) : Z * gmap Z Z :=
  match m !! k with
  | Some v => (v, m)
  | None => (0, <[k := 0]> m)
  end.

(** *** The node *)

(** One line of [ROS_INFO] output. *)
Inductive LogLine : Type :=
| Failed_to_add_projection (C P Csize Psize : Z).

Record SBANode : Type := {
  sba : SysSBA;
  point_indices : gmap Z Z;
  node_indices : gmap Z Z;
  rosout : list LogLine
}.

(** [SBANode::addNode] *)
Definition addNode (n : SBANode) (msg : CameraNode) : SBANode :=
  let trans := [translation_x msg; translation_y msg; translation_z msg; d1] in
  let qrot := [rotation_x msg; rotation_y msg; rotation_z msg; rotation_w msg] in
  let cam_params := {| cp_fx := fx msg; cp_fy := fy msg; cp_cx := cx msg;
                       cp_cy := cy msg; cp_tx := cn_baseline msg |} in
  let fixed := fixed msg in
  let '(sba', r) := SysSBA_addNode (sba n) trans qrot cam_params fixed in
  let newindex := to_unsigned r in
  {| sba := sba';
     point_indices := point_indices n;
     node_indices := <[to_unsigned (cn_index msg) := newindex]> (node_indices n);
     rosout := rosout n |}.

(** [SBANode::addPoint] *)
Definition addPoint (n : SBANode) (msg : WorldPoint) : SBANode :=
  let point := [wp_x msg; wp_y msg; wp_z msg; wp_w msg] in
  let '(sba', r) := SysSBA_addPoint (sba n) point in
  let newindex := to_unsigned r in
  {| sba := sba';
     point_indices := <[to_unsigned (wp_index msg) := newindex]> (point_indices n);
     node_indices := node_indices n;
     rosout := rosout n |}.

(** [SBANode::addProj] *)
Definition addProj (n : SBANode) (msg : Projection) : SBANode :=
  let '(r, node_indices') := subscript (node_indices n) (to_unsigned (camindex msg)) in
  let camindex := to_int r in
  let '(r, point_indices') := subscript (point_indices n) (to_unsigned (pointindex msg)) in
  let pointindex := to_int r in
  let keypoint := [u msg; v msg; d msg] in
  let stereo := pr_stereo msg in
  let Psize := to_int (Z.of_nat (length (tracks (sba n)))) in
  let Csize := to_int (Z.of_nat (length (nodes (sba n)))) in
  if (pointindex <? Psize) && (camindex <? Csize) then
    {| sba := SysSBA_addProj (sba n) camindex pointindex keypoint stereo;
       point_indices := point_indices';
       node_indices := node_indices';
       rosout := rosout n |}
  else
    {| sba := sba n;
       point_indices := point_indices';
       node_indices := node_indices';
       rosout := rosout n ++ [Failed_to_add_projection camindex pointindex Csize Psize] |}.

(** [SBANode::addFrame] *)
Definition addFrame (n : SBANode) (msg : Frame) : SBANode :=
  let n := fold_left addNode (fr_nodes msg) n in
  let n := fold_left addPoint (fr_points msg) n in
  fold_left addProj (fr_projections msg) n.

(** The number of projections held by the graph. *)
Definition nprojs (s : SysSBA) : nat :=
  list_sum (map (fun t => length (projections t)) (tracks s)).

(** A freshly constructed node. *)
Definition init : SBANode :=
  {| sba := {| nodes := []; tracks := [] |};
     point_indices := ∅; node_indices := ∅; rosout := [] |}.
End SBANode.
Arguments CameraNode : clear implicits.
Arguments WorldPoint : clear implicits.
Arguments Projection : clear implicits.
Arguments Frame : clear implicits.
Arguments CamParams : clear implicits.
Arguments SysSBA : clear implicits.
Arguments SBANode : clear implicits.
End SbaNode.

(** ** frame_image_proc/src/nodelets/frame_disparity.cpp *)

Module FrameDisparity.
Section PublishFrame.
Context {D : Type} {A : Arith D}.
Local Open Scope D_scope.

(** [cv::KeyPoint] *)
Record KeyPoint : Type := {
  pt_x : D; pt_y : D;
  size : D; angle : D; response : D;
  octave : Z; class_id : Z
}.

(** [frame_common::Keypoint], the element of [Frame::keypoints] *)
Record Keypoint : Type := {
  kx : D; ky : D; kd : D;
  ksize : D; kangle : D; kresponse : D;
  koctave : Z; kclass_id : Z;
  descriptor : list D;
  goodPt : bool
}.

(** [cv::Mat] holding [float]s, its rows contiguous. *)
Record Mat : Type := {
  rows : Z;
  cols : Z;
  data : list D
}.

(** [m.at<float>(i0, i1)]: element [i1] of row [i0], with no bounds check
    in C++ (an access outside [data] is undefined there, [d0] here). *)
Definition at_ (m : Mat) (i0 i1 : Z) : D :=
  let k := (i0 * cols m + i1)%Z in
  if (k <? 0)%Z then d0 else nth (Z.to_nat k) (data m) d0.

(** [m.row(i)] as the sequence the iterators of line 254 run through. *)
Definition row (m : Mat) (i : nat) : list D :=
  firstn (Z.to_nat (cols m)) (skipn (i * Z.to_nat (cols m)) (data m)).

Definition set_d (m : Keypoint) (x : D) : Keypoint :=
  {| kx := kx m; ky := ky m; kd := x;
     ksize := ksize m; kangle := kangle m; kresponse := kresponse m;
     koctave := koctave m; kclass_id := kclass_id m;
     descriptor := descriptor m; goodPt := goodPt m |}.

Definition set_goodPt (m : Keypoint) (b : bool) : Keypoint :=
  {| kx := kx m; ky := ky m; kd := kd m;
     ksize := ksize m; kangle := kangle m; kresponse := kresponse m;
     koctave := koctave m; kclass_id := kclass_id m;
     descriptor := descriptor m; goodPt := b |}.

(** Line 244: the value read from the disparity image for [kpts[i]]. *)
Definition lookup_disp (disp_image : Mat) (k : KeyPoint) : D :=
  at_ disp_image (dtoint (pt_y k)) (dtoint (pt_y k)).

(** The body of the loop of lines 243-263 for [kpts[i]]; [goodPt] of
    the element that [resize] created is [false]. *)
Definition keypoint_msg (disp_image dtors : Mat) (i : nat) (k : KeyPoint) : Keypoint :=
  let disp := lookup_disp disp_image k in
  let m := {| kx := pt_x k;
              ky := pt_y k;
              kd := disp;
              ksize := size k;
              kangle := angle k;
              kresponse := response k;
              koctave := octave k;
              kclass_id := class_id k;
              descriptor := row dtors i;
              goodPt := false |} in
  if d0 <? disp then
    set_goodPt m true
  else
    set_goodPt (set_d m d10) false.

(** What the loop would store had line 244 read [(y, x)], row then
    column, as [cv::Mat::at] takes them. *)
Definition disp_at_xy (disp_image : Mat) (k : KeyPoint) : D :=
  at_ disp_image (dtoint (pt_y k)) (dtoint (pt_x k)).

Context {Header CameraInfo : Type}.
Variable info_header : CameraInfo -> Header.

(** [frame_common::Frame] *)
Record Frame : Type := {
  header : Header;
  l_info : CameraInfo;
  r_info : CameraInfo;
  keypoints : list Keypoint
}.

(** [FrameDisparityNodelet::publishFrame]; [kpts] is what
    [detector->detect] returned and [dtors] what [extractor->compute]
    returned; the result is the message handed to [pub_frame_.publish]. *)
Definition publishFrame (kpts : list KeyPoint) (dtors disp_image : Mat)
    (l_info_msg r_info_msg : CameraInfo) : Frame :=
  {| header := info_header l_info_msg;
     l_info := l_info_msg;
     r_info := r_info_msg;
     keypoints := imap (keypoint_msg disp_image dtors) kpts |}.
End PublishFrame.
End FrameDisparity.

(** ** Properties of the arithmetic that the proofs use *)

(** Facts about [0.0] and the comparisons that hold for IEEE doubles and for
    the rationals alike. *)
Class ArithLaws (D : Type) {A : Arith D} : Prop := {
  dlt_0_not_le : forall x : D, dltb d0 x = true -> dleb x d0 = false;
  dmul_0_0 : dmul d0 d0 = d0 :> D;
  dadd_0_0 : dadd d0 d0 = d0 :> D
}.

(** Arithmetic without rounding: the operations form a commutative ring. *)
Definition ExactRing (D : Type) {A : Arith D} : Prop :=
  ring_theory d0 d1 dadd dmul dsub dopp (@eq D).

(** [f 0 + f 1 + ... + f (n-1)], added in this order. *)
Fixpoint sigma {D : Type} {A : Arith D} (n : nat) (f : nat -> D) : D :=
  match n with
  | O => d0
  | S O => f O
  | S m => dadd (sigma m f) (f m)
  end.

(** The sizes that the declarations give the members. *)
Definition Node_sized {D : Type} (nd : Sba.Node D) : Prop :=
  length (Sba.w2n nd) = 3%nat /\ length (Sba.w2i nd) = 3%nat /\
  length (Sba.Kcam nd) = 3%nat.

Definition Proj_sized {D : Type} (p : Sba.Proj D) : Prop :=
  length (Sba.kp p) = 3%nat /\ length (Sba.err p) = 3%nat.

(** Number of rows of the Jacobians of [p]. *)
Definition jrows {D : Type} (p : Sba.Proj D) : nat :=
  if Sba.stereo p then 3%nat else 2%nat.

(** ** Inputs on which the development is run *)

Module Ex.
Import Eigen Sba.
Local Open Scope D_scope.

Definition f (z : Z) : spec_float := B64.of_Z z.
Definition q (z : Z) : Qc := Exact.of_Z z.

(** A build in which the quaternion scale is 2. *)
Definition build_b64 (debug : bool) : Build spec_float :=
  {| qScale := f 2; DEBUG := debug; mono_err2 := fun p1 => p1.[2] / p1.[2] |}.

(** A build in which the quaternion scale is 1. *)
Definition build_b64_q1 : Build spec_float :=
  {| qScale := f 1; DEBUG := false; mono_err2 := fun p1 => p1.[2] / p1.[2] |}.

Definition build_exact : Build Qc :=
  {| qScale := q 2; DEBUG := false; mono_err2 := fun p1 => p1.[2] / p1.[2] |}.

(** The runs evaluate [v / s] with the functor of Eigen 2 unless they name
    the other one. *)
#[export] Instance quotient1_b64 : Quotient1 spec_float := by_reciprocal.
#[export] Instance quotient1_exact : Quotient1 Qc := by_reciprocal.

Section Camera.
Context {D : Type} {A : Arith D}.
Variable n : Z -> D.

Definition I34 : list (list D) :=
  [[n 1; n 0; n 0; n 0]; [n 0; n 1; n 0; n 0]; [n 0; n 0; n 1; n 0]].

Definition K : list (list D) :=
  [[n 500; n 0; n 320]; [n 0; n 500; n 240]; [n 0; n 0; n 1]].

(** A camera at the origin looking along z: fx = fy = 500,
    (cx, cy) = (320, 240), baseline 1, and the derivatives of the
    rotation at the identity quaternion. *)
Definition cam : Node D :=
  {| trans := [n 0; n 0; n 0; n 1];
     w2n := I34;
     w2i := mul 4 K I34;
     Kcam := K;
     baseline := n 1;
     dRdx := [[n 0; n 0; n 0]; [n 0; n 0; n 2]; [n 0; n (-2); n 0]];
     dRdy := [[n 0; n 0; n (-2)]; [n 0; n 0; n 0]; [n 2; n 0; n 0]];
     dRdz := [[n 0; n 2; n 0]; [n (-2); n 0; n 0]; [n 0; n 0; n 0]] |}.

(** A point two units in front of the camera, one behind it, and one in
    the plane z = 0 of the camera. *)
Definition pt_front : Point := [n 1; n 1; n 2; n 1].
Definition pt_behind : Point := [n 1; n 1; n (-2); n 1].
Definition pt_plane : Point := [n 1; n 1; n 0; n 1].

(** An observation of the point, with the residual of a previous
    [calcErr] in it. *)
Definition obs (st : bool) : Proj D :=
  {| ndi := 0; kp := [n 560; n 500; n 310]; err := [n 10; n (-10); n 10];
     stereo := st; isValid := true;
     Hpp := []; Hcc := []; Hpc := []; JcTE := []; Bp := [] |}.
End Camera.

(** *** A camera whose axes all lean, and a point 2^-600 in front of it *)

Definition third (z : Z) : spec_float := f z / f 3.

Definition tiny : spec_float := S754_finite false 4503599627370496 (-652).

(** The rotation with rows (2,-1,2)/3, (2,2,-1)/3, (-1,2,2)/3. *)
Definition R33 : list (list spec_float) :=
  [[third 2; third (-1); third 2];
   [third 2; third 2; third (-1)];
   [third (-1); third 2; third 2]].

Definition R34 : list (list spec_float) :=
  [[third 2; third (-1); third 2; f 0];
   [third 2; third 2; third (-1); f 0];
   [third (-1); third 2; third 2; tiny]].

Definition cam_tilted : Node spec_float :=
  {| trans := [f 0; f 0; f 0; f 1];
     w2n := R34;
     w2i := mul 4 (K f) R34;
     Kcam := K f;
     baseline := f 1;
     dRdx := mul 3 (dRdx (cam f)) R33;
     dRdy := mul 3 (dRdy (cam f)) R33;
     dRdz := mul 3 (dRdz (cam f)) R33 |}.

Definition pt_grazing : Point := [f 2; f 1; f 0; f 1].

(** A point with a coordinate that is not a number. *)
Definition pt_nan : Point := [f 1; f 1; B64.nan; f 1].

(** *** A graph with one camera and one point *)

Import SbaNode.

Definition mk (_ _ : list Qc) (_ : CamParams Qc) (_ : bool) : Node Qc := cam q.

Definition cam_msg : CameraNode Qc :=
  {| cn_index := 0;
     translation_x := q 0; translation_y := q 0; translation_z := q 0;
     rotation_x := q 0; rotation_y := q 0; rotation_z := q 0; rotation_w := q 1;
     fx := q 500; fy := q 500; cx := q 320; cy := q 240; cn_baseline := q 1;
     fixed := true |}.

Definition point_msg : WorldPoint Qc :=
  {| wp_index := 0; wp_x := q 1; wp_y := q 1; wp_z := q 2; wp_w := q 1 |}.

(** An observation by camera 7, which no message has introduced. *)
Definition proj_msg : Projection Qc :=
  {| camindex := 7; pointindex := 0; u := q 560; v := q 500; d := q 310;
     pr_stereo := true |}.

Definition one_camera_one_point : SBANode Qc :=
  addFrame mk init
    {| fr_nodes := [cam_msg]; fr_points := [point_msg]; fr_projections := [] |}.

(** *** A 3x3 disparity image and two keypoints *)

Import FrameDisparity.

Definition half (z : Z) : spec_float := f z / f 2.

Definition disp3 : @Mat spec_float :=
  {| rows := 3; cols := 3;
     data := [f 0; f 1; f 2;
              f 3; f 0; f 5;
              f 6; f 7; f 8] |}.

Definition dtors2 : @Mat spec_float :=
  {| rows := 2; cols := 2; data := [f 11; f 12; f 21; f 22] |}.

(** At (x, y) = (2.5, 1.5) and at (0.5, 2.5). *)
Definition kpts2 : list (@KeyPoint spec_float) :=
  [ {| pt_x := half 5; pt_y := half 3; size := f 7; angle := f 0;
       response := f 30; octave := 0; class_id := -1 |};
    {| pt_x := half 1; pt_y := half 5; size := f 7; angle := f 0;
       response := f 40; octave := 0; class_id := -1 |} ].
End Ex.

(** ** More of the sources *)

Module B64More.
(** The sign bit is clear, or the value is NaN. *)
Definition nonneg_or_nan (x : spec_float) : bool :=
  match x with
  | S754_nan => true
  | S754_zero s | S754_infinity s | S754_finite s _ _ => negb s
  end.
End B64More.

(** *** sba/src/proj.cpp: [getErrNorm] *)

Module SbaNorm.
Import Eigen Sba.

(** [Proj::getErrNorm]: Eigen's [norm()] is the square root of
    [squaredNorm()].  [Arith] lists no square root, so this function is
    written for doubles. *)
Definition getErrNorm (p : Proj spec_float) : spec_float :=
  if stereo p then SFsqrt B64.prec B64.emax (squaredNorm (err p))
  else SFsqrt B64.prec B64.emax (squaredNorm (start 2 (err p))).
End SbaNorm.

(** *** sba/src/nodes/sba_node.cpp: the timer callback *)

Module SbaTimer.
Section DoSBA.
Context {D : Type} {A : Arith D}.
Import Sba SbaNode.

(** [SysSBA::calcRMSCost] (sba/sba.cpp, not among the sources): it may
    update the graph and returns the cost. *)
Variable calcRMSCost : SysSBA D -> SysSBA D * D.

(** [isinf], which [Arith] does not list. *)
Variable disinf : D -> bool.

(** What [doSBA] emits: its two [ROS_INFO] lines and the call of
    [drawGraph]. *)
Inductive TimerOut : Type :=
| NaN_cost
| SBA_counts (Nodes Points Projections : Z)
| Draw_graph.

(** The loop of lines 127-130: [projs += sba.tracks.size()] once for
    every [i] from 0 below [(int)sba.tracks.size()]; [projs] is an
    [unsigned int]. *)
Definition count_projs (tracks_size : Z) : Z :=
  Nat.iter (Z.to_nat (to_int tracks_size))
           (fun projs => to_unsigned (projs + tracks_size)) 0.

(** [SBANode::doSBA]; [cam_subs] and [point_subs] are what
    [getNumSubscribers] returns for the two marker publishers. *)
Definition doSBA (n : SBANode D) (cam_subs point_subs : Z)
  : SBANode D * list TimerOut :=
  let '(sba1, out1) :=
    if 0 <? Z.of_nat (length (nodes (sba n))) then
      let '(sba', cost) := calcRMSCost (sba n) in
      (sba', if disnan cost || disinf cost then [NaN_cost] else [])
    else (sba n, []) in
  let projs := count_projs (Z.of_nat (length (tracks sba1))) in
  let out2 := [SBA_counts (to_int (Z.of_nat (length (nodes sba1))))
                          (to_int (Z.of_nat (length (tracks sba1))))
                          (to_int projs)] in
  let out3 := if (0 <? cam_subs) || (0 <? point_subs) then [Draw_graph] else [] in
  ({| sba := sba1;
      point_indices := point_indices n;
      node_indices := node_indices n;
      rosout := rosout n |},
   out1 ++ out2 ++ out3).
End DoSBA.
End SbaTimer.

(** Every internal index the maps hold is 0 or below the number of nodes,
    respectively of tracks. *)
Definition indices_ok {D : Type} (n : SbaNode.SBANode D) : Prop :=
  (forall k v : Z, SbaNode.node_indices n !! k = Some v ->
     0 <= v < Z.max 1 (Z.of_nat (length (SbaNode.nodes (SbaNode.sba n))))) /\
  (forall k v : Z, SbaNode.point_indices n !! k = Some v ->
     0 <= v < Z.max 1 (Z.of_nat (length (SbaNode.tracks (SbaNode.sba n))))).

(** *** frame_disparity.cpp: configuration and subscriptions *)

Module Nodelet.
Section ConfigCb.
(** The type of [uniqueness_ratio], which [configCb] only passes on. *)
Context {Ratio : Type}.

(** [frame_image_proc::DisparityConfig] (generated; the fields read). *)
Record Config : Type := {
  prefilter_size : Z;
  prefilter_cap : Z;
  correlation_window_size : Z;
  min_disparity : Z;
  disparity_range : Z;
  uniqueness_ratio : Ratio;
  texture_threshold : Z;
  speckle_size : Z;
  speckle_range : Z;
  use_gpu : bool
}.

(** The calls [configCb] makes on [block_matcher_] (frame_image_proc/
    matcher.h is not among the sources), and its assignment to the
    member [use_gpu]. *)
Inductive MatcherCall : Type :=
| setPreFilterSize (v : Z)
| setPreFilterCap (v : Z)
| setCorrelationWindowSize (v : Z)
| setMinDisparity (v : Z)
| setDisparityRange (v : Z)
| setUniquenessRatio (v : Ratio)
| setTextureThreshold (v : Z)
| setSpeckleSize (v : Z)
| setSpeckleRange (v : Z)
| set_use_gpu (b : bool).

(** Lines 281-283: the three settings made valid, in the [Config] the
    caller passed by reference.  [/] on [int] truncates toward zero. *)
Definition tweak (config : Config) : Config :=
  {| prefilter_size := Z.lor (prefilter_size config) 1;
     prefilter_cap := prefilter_cap config;
     correlation_window_size := Z.lor (correlation_window_size config) 1;
     min_disparity := min_disparity config;
     disparity_range := Z.quot (disparity_range config) 16 * 16;
     uniqueness_ratio := uniqueness_ratio config;
     texture_threshold := texture_threshold config;
     speckle_size := speckle_size config;
     speckle_range := speckle_range config;
     use_gpu := use_gpu config |}.

(** [FrameDisparityNodelet::configCb]: the [Config] as it leaves, and the
    calls in their order. *)
Definition configCb (config : Config) : Config * list MatcherCall :=
  let config := tweak config in
  (config,
   [ setPreFilterSize (prefilter_size config);
     setPreFilterCap (prefilter_cap config);
     setCorrelationWindowSize (correlation_window_size config);
     setMinDisparity (min_disparity config);
     setDisparityRange (disparity_range config);
     setUniquenessRatio (uniqueness_ratio config);
     setTextureThreshold (texture_threshold config);
     setSpeckleSize (speckle_size config);
     setSpeckleRange (speckle_range config);
     set_use_gpu (use_gpu config) ]).

(** The values of an [int]. *)
Definition is_int (z : Z) : Prop := - 2 ^ 31 <= z < 2 ^ 31.
End ConfigCb.

Section ConnectCb.
(** Which of the four input subscriptions are active. *)
Record Subs : Type := {
  sub_l_image : bool;
  sub_l_info : bool;
  sub_r_image : bool;
  sub_r_info : bool
}.

Definition all_subs (b : bool) : Subs :=
  {| sub_l_image := b; sub_l_info := b; sub_r_image := b; sub_r_info := b |}.

(** After [onInit]: "Topic subscriptions happen on demand". *)
Definition onInit : Subs := all_subs false.

(** [FrameDisparityNodelet::connectCb]; [n_disparity] and [n_frame] are
    what [getNumSubscribers] returns for [pub_disparity_] and
    [pub_frame_]. *)
Definition connectCb (s : Subs) (n_disparity n_frame : Z) : Subs :=
  if (n_disparity =? 0) && (n_frame =? 0) then
    all_subs false
  else if negb (sub_l_image s) then
    all_subs true
  else s.
End ConnectCb.
End Nodelet.

(** *** More inputs *)

Module Ex2.
Import Eigen Sba SbaNode Ex.
Local Open Scope D_scope.

(** The camera [cam] of [Ex] without a baseline. *)
Definition cam_no_baseline : Node spec_float :=
  {| trans := trans (cam f); w2n := w2n (cam f); w2i := w2i (cam f);
     Kcam := Kcam (cam f); baseline := f 0;
     dRdx := dRdx (cam f); dRdy := dRdy (cam f); dRdz := dRdz (cam f) |}.

(** A point three units in front of [cam]; its image coordinates
    3460/3 and 1220/3 are not doubles. *)
Definition pt_thirds : Point := [f 5; f 1; f 3; f 1].

(** An observation by camera 0 of point 0. *)
Definition known_proj_msg : Projection Qc :=
  {| camindex := 0; pointindex := 0; u := q 570; v := q 490; d := q 320;
     pr_stereo := true |}.

(** One camera, one point, and two observations that name a camera and
    a point no message has introduced. *)
Definition frame_unknown_ids : Frame Qc :=
  {| fr_nodes := [cam_msg]; fr_points := [point_msg];
     fr_projections :=
       [ proj_msg;
         {| camindex := 3; pointindex := 5; u := q 1; v := q 2; d := q 3;
            pr_stereo := false |} ] |}.

(** The first keypoint of [kpts2], at (x, y) = (2.5, 1.5). *)
Definition keypoint_a : @FrameDisparity.KeyPoint spec_float :=
  {| FrameDisparity.pt_x := half 5; FrameDisparity.pt_y := half 3;
     FrameDisparity.size := f 7; FrameDisparity.angle := f 0;
     FrameDisparity.response := f 30; FrameDisparity.octave := 0;
     FrameDisparity.class_id := -1 |}.

(** A cost function for [doSBA] that reports 0 and leaves the graph. *)
Definition zero_cost (s : SysSBA Qc) : SysSBA Qc * Qc := (s, q 0).

(** Settings as a user may send them. *)
Definition config_sent : @Nodelet.Config Z :=
  {| Nodelet.prefilter_size := 8;
     Nodelet.prefilter_cap := 31;
     Nodelet.correlation_window_size := 15;
     Nodelet.min_disparity := 0;
     Nodelet.disparity_range := 70;
     Nodelet.uniqueness_ratio := 15;
     Nodelet.texture_threshold := 10;
     Nodelet.speckle_size := 100;
     Nodelet.speckle_range := 4;
     Nodelet.use_gpu := false |}.
End Ex2.

(** * Theorems *)

(** ** The arithmetic instances *)

Lemma binary64_laws : ArithLaws spec_float.
Proof.
  split.
  - intros [s | s | | s m e]; cbn; try discriminate; destruct s; cbn; congruence.
  - reflexivity.
  - reflexivity.
Qed.

Lemma exact_laws : ArithLaws Qc.
Proof.
  split.
  - intros x. cbn. unfold Exact.ltb, Exact.leb.
    destruct (Qle_bool x (Exact.of_Z 0)); cbn; congruence.
  - apply Qc_is_canon. reflexivity.
  - apply Qc_is_canon. reflexivity.
Qed.

Lemma exact_ring : ExactRing Qc.
Proof. exact Qcrt. Qed.

(** ** Lists as Eigen vectors *)

Section EigenFacts.
Context {D : Type} {A : Arith D}.
Import Eigen.
Local Open Scope D_scope.

Lemma nth_map_seq {X : Type} (g : nat -> X) (dflt : X) (n i s : nat) :
  (i < n)%nat -> nth i (map g (seq s n)) dflt = g (s + i)%nat.
Proof.
  revert i s. induction n as [| n IH]; intros i s Hi; [lia |].
  destruct i as [| i]; cbn.
  - f_equal. lia.
  - rewrite IH by lia. f_equal. lia.
Qed.

Lemma coeff_transpose_mul (m n : nat) (M N : list (list D)) (i j : nat) :
  (i < m)%nat -> (j < n)%nat ->
  coeff (mul n (transpose m M) N) i j = dot (col M i) (col N j).
Proof.
  intros Hi Hj. unfold coeff, mul, transpose.
  rewrite map_map.
  rewrite (nth_map_seq _ [] m i 0 Hi). cbn [Nat.add].
  now rewrite (nth_map_seq _ d0 n j 0 Hj).
Qed.

Lemma at_transpose_mulv (m : nat) (M : list (list D)) (v : list D) (i : nat) :
  (i < m)%nat ->
  (mulv (transpose m M) v).[i] = dot (col M i) v.
Proof.
  intros Hi. unfold at_, mulv, transpose. rewrite map_map.
  now rewrite (nth_map_seq _ d0 m i 0 Hi).
Qed.

Lemma dot2 (a0 a1 b0 b1 : D) : dot [a0; a1] [b0; b1] = a0 * b0 + a1 * b1.
Proof. reflexivity. Qed.

Lemma dot3 (a0 a1 a2 b0 b1 b2 : D) :
  dot [a0; a1; a2] [b0; b1; b2] = a0 * b0 + a1 * b1 + a2 * b2.
Proof. reflexivity. Qed.
End EigenFacts.

(** ** Residuals: [calcErr] and [getErrSquaredNorm] *)

Section Residual.
Context {D : Type} {A : Arith D} {B : Build D} {Q : Eigen.Quotient1 D}.
Import Eigen Sba.
Local Open Scope D_scope.

Lemma calcErr_guard (nd : Node D) (pt : Point) (p : Proj D) :
  (depth nd pt <=? d0) = true ->
  calcErr nd pt p = (with_err p [d0; d0; d0], d0).
Proof.
  unfold depth, calcErr, calcErrStereo_, calcErrMono_. intros H.
  destruct (stereo p); rewrite H; reflexivity.
Qed.

(** C3.  When the projected depth [p1(2)] is [<= 0], [calcErr] stores the
    residual (0,0,0) and returns the cost 0, for the mono and the stereo
    model and whatever keypoint the projection holds. *)
Theorem calcErr_behind_camera (nd : Node D) (pt : Point) (p : Proj D) :
  (depth nd pt <=? d0) = true ->
  err (fst (calcErr nd pt p)) = [d0; d0; d0] /\ snd (calcErr nd pt p) = d0.
Proof.
  intros H. rewrite (calcErr_guard nd pt p H). split; reflexivity.
Qed.

(** C8.  The cost [calcErr] returns is the value [getErrSquaredNorm]
    returns right after it: the squared norm of the first two coefficients
    of the residual for mono, of all three for stereo, and 0 when the
    depth is not positive. *)
Theorem calcErr_cost_is_getErrSquaredNorm {L : ArithLaws D}
    (nd : Node D) (pt : Point) (p : Proj D) :
  let p' := fst (calcErr nd pt p) in
  let cost := snd (calcErr nd pt p) in
  getErrSquaredNorm p' = cost /\
  cost = (if depth nd pt <=? d0 then d0
          else if stereo p then squaredNorm (err p')
               else squaredNorm (start 2 (err p'))).
Proof.
  cbv zeta. unfold getErrSquaredNorm.
  destruct (depth nd pt <=? d0) eqn:Hd.
  - rewrite (calcErr_guard nd pt p Hd). cbn [fst snd with_err stereo err].
    assert (H2 : squaredNorm (start 2 [d0; d0; d0]) = d0 :> D).
    { cbn. now rewrite dmul_0_0, dadd_0_0. }
    assert (H3 : squaredNorm [d0; d0; d0] = d0 :> D).
    { cbn. now rewrite dmul_0_0, !dadd_0_0. }
    destruct (stereo p); auto.
  - unfold depth in Hd. unfold calcErr, calcErrStereo_, calcErrMono_.
    destruct (stereo p) eqn:Hs; rewrite Hd; cbn [fst snd with_err stereo err];
      rewrite Hs; split; reflexivity.
Qed.

(** C6.  For a stereo projection with positive depth, the residual that
    [calcErr] stores is (u, v, u') minus the keypoint, where (u, v) are
    the first two coordinates of [w2i * pt] times the reciprocal of the
    third, and u' is the quotient of the first by the third coordinate of
    [Kcam * (w2n * pt - (baseline, 0, 0))]. *)
Theorem calcErr_stereo_residual {L : ArithLaws D}
    (nd : Node D) (pt : Point) (p : Proj D) :
  stereo p = true -> Node_sized nd -> Proj_sized p ->
  (d0 <? depth nd pt) = true ->
  let p1 := mulv (w2i nd) pt in
  let pr := mulv (Kcam nd) (vsub (mulv (w2n nd) pt) [baseline nd; d0; d0]) in
  err (fst (calcErr nd pt p)) =
    [ p1.[0] * (d1 / p1.[2]) - (kp p).[0];
      p1.[1] * (d1 / p1.[2]) - (kp p).[1];
      pr.[0] / pr.[2] - (kp p).[2] ].
Proof.
  intros Hs (_ & Hi & _) (Hk & _) Hpos. cbv zeta.
  apply dlt_0_not_le in Hpos. unfold depth in Hpos.
  unfold calcErr, calcErrStereo_. rewrite Hs, Hpos. cbn [fst with_err err].
  destruct (w2i nd) as [| r0 [| r1 [| r2 [| ? ?]]]]; try discriminate Hi.
  destruct (kp p) as [| k0 [| k1 [| k2 [| ? ?]]]]; try discriminate Hk.
  reflexivity.
Qed.
End Residual.

(** ** Jacobians: [setJacobians] *)

Section Jacobians.
Context {D : Type} {A : Arith D} {B : Build D}.
Import Eigen Sba.
Local Open Scope D_scope.

Lemma jacobiansMono_rows (nd : Node D) (pt : Point) :
  exists c0 c1 p0 p1 : list D,
    snd (fst (jacobiansMono nd pt)) = [c0; c1] /\
    snd (jacobiansMono nd pt) = [p0; p1].
Proof. unfold jacobiansMono. cbv zeta. cbn [fst snd]. eauto 8. Qed.

Lemma jacobiansStereo_rows (nd : Node D) (pt : Point) :
  exists c0 c1 c2 p0 p1 p2 : list D,
    snd (fst (jacobiansStereo nd pt)) = [c0; c1; c2] /\
    snd (jacobiansStereo nd pt) = [p0; p1; p2].
Proof. unfold jacobiansStereo. cbv zeta. cbn [fst snd]. eauto 10. Qed.

(** What [setJacobians] stores when it returns. *)
Lemma setJacobians_Some (nd : Node D) (pt : Point) (p p' : Proj D) :
  setJacobians nd pt p = Some p' ->
  let e := if stereo p then err p else start 2 (err p) in
  p' = with_blocks p
         (mul 3 (transpose 3 (jacp nd pt p)) (jacp nd pt p))
         (mul 6 (transpose 6 (jacc nd pt p)) (jacc nd pt p))
         (mul 6 (transpose 3 (jacp nd pt p)) (jacc nd pt p))
         (mulv (transpose 6 (jacc nd pt p)) e)
         (mulv (transpose 3 (jacp nd pt p)) e).
Proof.
  unfold setJacobians, jacc, jacp, jacobians,
    setJacobiansStereo_, setJacobiansMono_.
  destruct (stereo p).
  - destruct (jacobiansStereo nd pt) as [[ipz2 jc] jp]. cbn [fst snd].
    destruct (disnan ipz2); [discriminate |].
    destruct (DEBUG && nan_in_jacc jc); [discriminate |].
    intros H. now inversion H.
  - destruct (jacobiansMono nd pt) as [[ipz2 jc] jp]. cbn [fst snd].
    destruct (disnan ipz2); [discriminate |].
    destruct (DEBUG && nan_in_jacc jc); [discriminate |].
    intros H. now inversion H.
Qed.

Lemma jac_rows (nd : Node D) (pt : Point) (p : Proj D) :
  length (jacc nd pt p) = jrows p /\ length (jacp nd pt p) = jrows p.
Proof.
  unfold jacc, jacp, jacobians, jrows. destruct (stereo p).
  - destruct (jacobiansStereo_rows nd pt) as (? & ? & ? & ? & ? & ? & -> & ->).
    split; reflexivity.
  - destruct (jacobiansMono_rows nd pt) as (? & ? & ? & ? & -> & ->).
    split; reflexivity.
Qed.

Lemma dot_col_col (r : nat) (M N : list (list D)) (i j : nat) :
  (r = 2 \/ r = 3)%nat -> length M = r -> length N = r ->
  dot (col M i) (col N j) = sigma r (fun k => coeff M k i * coeff N k j).
Proof.
  intros [-> | ->] HM HN;
    destruct M as [| m0 [| m1 [| m2 [| ? ?]]]]; try discriminate HM;
    destruct N as [| n0 [| n1 [| n2 [| ? ?]]]]; try discriminate HN;
    reflexivity.
Qed.

Lemma dot_col_vec (r : nat) (M : list (list D)) (v : list D) (i : nat) :
  (r = 2 \/ r = 3)%nat -> length M = r -> length v = r ->
  dot (col M i) v = sigma r (fun k => coeff M k i * v.[k]).
Proof.
  intros [-> | ->] HM Hv;
    destruct M as [| m0 [| m1 [| m2 [| ? ?]]]]; try discriminate HM;
    destruct v as [| v0 [| v1 [| v2 [| ? ?]]]]; try discriminate Hv;
    reflexivity.
Qed.

Lemma jrows_2_3 (p : Proj D) : (jrows p = 2 \/ jrows p = 3)%nat.
Proof. unfold jrows. destruct (stereo p); auto. Qed.

(** [setJacobians] returns unless [ipz2] is NaN or, in a DEBUG build, one
    of the first two rows of [jacc] holds a NaN. *)
Lemma setJacobians_returns (nd : Node D) (pt : Point) (p : Proj D) :
  disnan (fst (fst (jacobians nd pt p))) = false ->
  DEBUG && nan_in_jacc (jacc nd pt p) = false ->
  exists p', setJacobians nd pt p = Some p'.
Proof.
  unfold setJacobians, jacc, jacobians, setJacobiansStereo_, setJacobiansMono_.
  destruct (stereo p).
  - destruct (jacobiansStereo nd pt) as [[ipz2 jc] jp]. cbn [fst snd].
    intros -> ->. eauto.
  - destruct (jacobiansMono nd pt) as [[ipz2 jc] jp]. cbn [fst snd].
    intros -> ->. eauto.
Qed.

(** C5.  Unless it takes the trap of lines 64 and 162 ([ipz2] is NaN) or,
    in a DEBUG build, that of lines 115 and 223 (a NaN in the first two
    rows of [jacc]), [setJacobians] returns, for a mono and for a stereo
    projection, and the cached blocks it has stored are the products of
    the Jacobians it has just computed (r rows: 2 for mono, 3 for stereo)
    and of the stored residual [err]:
      Hpp(i,j) = sum_k jacp(k,i) jacp(k,j),
      Hcc(i,j) = sum_k jacc(k,i) jacc(k,j),
      Hpc(i,j) = sum_k jacp(k,i) jacc(k,j),
      JcTE(i)  = sum_k jacc(k,i) err(k),
      Bp(i)    = sum_k jacp(k,i) err(k),
    the sums running over k < r, so over the first two coefficients of
    [err] for mono and over all three for stereo. *)
Theorem setJacobians_blocks (nd : Node D) (pt : Point) (p : Proj D) :
  length (err p) = 3%nat ->
  disnan (fst (fst (jacobians nd pt p))) = false ->
  DEBUG && nan_in_jacc (jacc nd pt p) = false ->
  let Jc := jacc nd pt p in
  let Jp := jacp nd pt p in
  let r := jrows p in
  exists p', setJacobians nd pt p = Some p' /\
  (forall i j, (i < 3)%nat -> (j < 3)%nat ->
     coeff (Hpp p') i j = sigma r (fun k => coeff Jp k i * coeff Jp k j)) /\
  (forall i j, (i < 6)%nat -> (j < 6)%nat ->
     coeff (Hcc p') i j = sigma r (fun k => coeff Jc k i * coeff Jc k j)) /\
  (forall i j, (i < 3)%nat -> (j < 6)%nat ->
     coeff (Hpc p') i j = sigma r (fun k => coeff Jp k i * coeff Jc k j)) /\
  (forall i, (i < 6)%nat ->
     (JcTE p').[i] = sigma r (fun k => coeff Jc k i * (err p).[k])) /\
  (forall i, (i < 3)%nat ->
     (Bp p').[i] = sigma r (fun k => coeff Jp k i * (err p).[k])).
Proof.
  intros He Hn Hd.
  destruct (setJacobians_returns nd pt p Hn Hd) as [p' H].
  cbv zeta. exists p'. split; [exact H |].
  apply setJacobians_Some in H. cbv zeta in H. subst p'.
  cbn [Hpp Hcc Hpc JcTE Bp with_blocks].
  destruct (jac_rows nd pt p) as [Hc Hp].
  pose proof (jrows_2_3 p) as Hr.
  assert (Hv : forall (M : list (list D)) i, length M = jrows p ->
            dot (col M i) (if stereo p then err p else start 2 (err p)) =
            sigma (jrows p) (fun k => coeff M k i * (err p).[k])).
  { intros M i HM.
    destruct (err p) as [| e0 [| e1 [| e2 [| ? ?]]]]; try discriminate He.
    unfold jrows in *. destruct (stereo p).
    - now apply dot_col_vec.
    - rewrite (dot_col_vec 2 M (start 2 [e0; e1; e2]) i); auto. }
  repeat split; intros.
  - rewrite coeff_transpose_mul by assumption. now apply dot_col_col.
  - rewrite coeff_transpose_mul by assumption. now apply dot_col_col.
  - rewrite coeff_transpose_mul by assumption. now apply dot_col_col.
  - rewrite at_transpose_mulv by assumption. now apply Hv.
  - rewrite at_transpose_mulv by assumption. now apply Hv.
Qed.

(** *** With exact arithmetic *)

Section Exact.
Hypothesis R : ExactRing D.

Lemma exact_ring_theory : ring_theory d0 d1 dadd dmul dsub dopp (@eq D).
Proof. exact R. Qed.

Add Ring Dring : exact_ring_theory.

Lemma dopp_0 : - d0 = d0 :> D.
Proof. ring. Qed.

Lemma at_vopp (v : list D) (i : nat) : (vopp v).[i] = - v.[i].
Proof.
  unfold at_, vopp. rewrite <- dopp_0 at 1. apply map_nth.
Qed.

(** In arithmetic without rounding the point Jacobian is the negated
    translation block of the camera Jacobian in both models:
    jacp(i,j) = - jacc(i,j) for every row i and every column j < 3.  (For
    doubles see [jacp_opp_jacc_up_to_zero_sign].) *)
Lemma jacp_is_opp_jacc (nd : Node D) (pt : Point) (p : Proj D) (i j : nat) :
  (i < jrows p)%nat -> (j < 3)%nat ->
  coeff (jacp nd pt p) i j = - coeff (jacc nd pt p) i j.
Proof.
  unfold jrows, jacp, jacc, jacobians. intros Hi Hj.
  destruct (stereo p).
  - unfold jacobiansStereo. cbv zeta. cbn [fst snd].
    destruct i as [| [| [| i]]]; [| | | lia];
      destruct j as [| [| [| j]]]; try lia;
      cbn [coeff nth]; rewrite !at_vopp; ring.
  - unfold jacobiansMono. cbv zeta. cbn [fst snd].
    destruct i as [| [| i]]; [| | lia];
      destruct j as [| [| [| j]]]; try lia;
      cbn [coeff nth]; rewrite !at_vopp; ring.
Qed.
End Exact.
End Jacobians.

(** ** Stereo against mono *)

Section StereoMono.
Context {D : Type} {A : Arith D} {B : Build D}.
Import Eigen Sba.
Local Open Scope D_scope.

Local Abbreviation Jc_mono nd pt := (snd (fst (jacobiansMono nd pt))).
Local Abbreviation Jp_mono nd pt := (snd (jacobiansMono nd pt)).
Local Abbreviation Jc_stereo nd pt := (snd (fst (jacobiansStereo nd pt))).
Local Abbreviation Jp_stereo nd pt := (snd (jacobiansStereo nd pt)).

(** The second row of the stereo Jacobians and the quaternion columns of
    the first are computed by the expressions of the mono model. *)
Lemma stereo_mono_row1 (nd : Node D) (pt : Point) (j : nat) :
  coeff (Jc_stereo nd pt) 1 j = coeff (Jc_mono nd pt) 1 j /\
  coeff (Jp_stereo nd pt) 1 j = coeff (Jp_mono nd pt) 1 j.
Proof. split; reflexivity. Qed.

Lemma stereo_mono_row0_quaternion (nd : Node D) (pt : Point) (j : nat) :
  (3 <= j)%nat ->
  coeff (Jc_stereo nd pt) 0 j = coeff (Jc_mono nd pt) 0 j.
Proof.
  intros Hj. destruct j as [| [| [| j]]]; try lia. reflexivity.
Qed.


Section Exact.
Hypothesis R : ExactRing D.

Lemma exact_ring_theory' : ring_theory d0 d1 dadd dmul dsub dopp (@eq D).
Proof. exact R. Qed.

Add Ring Dring' : exact_ring_theory'.

(** The translation columns of the first row of the stereo camera
    Jacobian, and the first row of the stereo point Jacobian, are the
    mono ones times [qScale]: lines 193, 197, 201, 208, 212 and 216
    multiply by [ipz2fxq] where lines 91, 94, 97, 103, 106 and 109
    multiply by [ipz2fx]. *)
Lemma stereo_row0_is_scaled (nd : Node D) (pt : Point) (j : nat) :
  (j < 3)%nat ->
  coeff (Jc_stereo nd pt) 0 j = qScale * coeff (Jc_mono nd pt) 0 j /\
  coeff (Jp_stereo nd pt) 0 j = qScale * coeff (Jp_mono nd pt) 0 j.
Proof.
  intros Hj. unfold jacobiansStereo, jacobiansMono. cbv zeta. cbn [fst snd].
  destruct j as [| [| [| j]]]; try lia; cbn [coeff nth]; split; ring.
Qed.

(** In exact arithmetic the constant 1 leaves every number as it is. *)
Lemma qScale_one_exact (x : D) : qScale = d1 -> qScale * x = x.
Proof. intros ->. ring. Qed.

(** X1.  With [qScale = 1] and exact arithmetic the first two rows of
    the stereo Jacobians are the mono Jacobians of the same node and
    point. *)
Lemma stereo_mono_agree_unscaled (nd : Node D) (pt : Point) (i j : nat) :
  qScale = d1 -> (i < 2)%nat ->
  coeff (Jc_stereo nd pt) i j = coeff (Jc_mono nd pt) i j /\
  coeff (Jp_stereo nd pt) i j = coeff (Jp_mono nd pt) i j.
Proof.
  intros Hq Hi. destruct i as [| [| i]]; [| | lia].
  - destruct (Nat.lt_ge_cases j 3) as [Hj | Hj].
    + destruct (stereo_row0_is_scaled nd pt j Hj) as [-> ->].
      rewrite Hq. split; ring.
    + split; [now apply stereo_mono_row0_quaternion |].
      destruct j as [| [| [| j]]]; try lia. reflexivity.
  - apply stereo_mono_row1.
Qed.
End Exact.
End StereoMono.

Section Evaluated.
Import Eigen Sba Ex.
Local Open Scope D_scope.

(** What a header with another constant would give.  Camera [cam], the
    point (1,1,2) at depth 2, binary64 arithmetic and [qScale = 2]: entry
    (0,0) of the stereo camera Jacobian is -500 and entry (0,0) of the
    stereo point Jacobian is 500, where the mono Jacobians of the same
    observation hold -250 and 250. *)
Lemma stereo_row0_differs_from_mono :
  let B := build_b64 false in
  let Jc_stereo := jacc (cam f) (pt_front f) (obs f true) in
  let Jc_mono := jacc (cam f) (pt_front f) (obs f false) in
  let Jp_stereo := jacp (cam f) (pt_front f) (obs f true) in
  let Jp_mono := jacp (cam f) (pt_front f) (obs f false) in
  (d0 <? depth (cam f) (pt_front f)) = true /\
  coeff Jc_stereo 0 0 = f (-500) /\ coeff Jc_mono 0 0 = f (-250) /\
  coeff Jp_stereo 0 0 = f 500 /\ coeff Jp_mono 0 0 = f 250 /\
  SFeqb (coeff Jc_stereo 0 0) (coeff Jc_mono 0 0) = false /\
  SFeqb (coeff Jp_stereo 0 0) (coeff Jp_mono 0 0) = false.
Proof. vm_compute. repeat split; reflexivity. Qed.

(** The same input with [qScale = 1]: the first two rows agree. *)
Lemma stereo_rows_agree_when_qScale_1 :
  let B := build_b64_q1 in
  firstn 2 (jacc (cam f) (pt_front f) (obs f true)) =
    jacc (cam f) (pt_front f) (obs f false) /\
  firstn 2 (jacp (cam f) (pt_front f) (obs f true)) =
    jacp (cam f) (pt_front f) (obs f false).
Proof. vm_compute. split; reflexivity. Qed.

(** C4 (the code departs from it), in binary64.
    (1) Camera [cam] and the point (1,1,0), which lies in the plane z = 0
    of the camera, in a build without DEBUG: [ipz2] is +infinity,
    [isnan(ipz2)] is false, so [setJacobians] returns, and no coefficient
    of the blocks Hpp, Hcc, Hpc, JcTE, Bp it has stored is finite.
    (2) Camera [cam_tilted] and a point at depth 2^-600, with or without
    DEBUG: pz*pz underflows to 0, [ipz2] is +infinity again, the first two
    rows of [jacc] hold infinities and no NaN, so the loop of a DEBUG
    build passes as well, and again no stored coefficient is finite.
    Both for the mono and for the stereo model. *)
Theorem setJacobians_stores_non_finite :
  (forall st : bool,
     let B := build_b64 false in
     fst (fst (jacobians (cam f) (pt_plane f) (obs f st))) = B64.pinf /\
     disnan B64.pinf = false /\
     exists p',
       setJacobians (cam f) (pt_plane f) (obs f st) = Some p' /\
       coeff (Hpp p') 0 0 = B64.nan /\
       forallb B64.none_finite [Hpp p'; Hcc p'; Hpc p'; [JcTE p']; [Bp p']] = true) /\
  (forall debug st : bool,
     let B := build_b64 debug in
     (d0 <? depth cam_tilted pt_grazing) = true /\
     fst (fst (jacobians cam_tilted pt_grazing (obs f st))) = B64.pinf /\
     nan_in_jacc (jacc cam_tilted pt_grazing (obs f st)) = false /\
     exists p',
       setJacobians cam_tilted pt_grazing (obs f st) = Some p' /\
       coeff (Hpp p') 0 0 = B64.pinf /\
       forallb B64.none_finite [Hpp p'; Hcc p'; Hpc p'; [JcTE p']; [Bp p']] = true).
Proof.
  split.
  - intros st B. destruct st; vm_compute; (split; [reflexivity |]);
      (split; [reflexivity |]); eexists; repeat split; reflexivity.
  - intros debug st B. destruct debug, st; vm_compute;
      (split; [reflexivity |]); (split; [reflexivity |]);
      (split; [reflexivity |]); eexists; repeat split; reflexivity.
Qed.
End Evaluated.

Section Trap.
Context {D : Type} {A : Arith D} {B : Build D}.
Import Eigen Sba.

(** X3.  The check of lines 64 and 162 does abort when [ipz2] is NaN. *)
Lemma setJacobians_traps_on_nan (nd : Node D) (pt : Point) (p : Proj D) :
  disnan (fst (fst (jacobians nd pt p))) = true ->
  setJacobians nd pt p = None.
Proof.
  unfold setJacobians, jacobians, setJacobiansStereo_, setJacobiansMono_.
  destruct (stereo p).
  - destruct (jacobiansStereo nd pt) as [[ipz2 jc] jp]. cbn [fst]. now intros ->.
  - destruct (jacobiansMono nd pt) as [[ipz2 jc] jp]. cbn [fst]. now intros ->.
Qed.
End Trap.

(** ** Negation on binary64 *)

Section Binary64.
Import Eigen Sba.
Local Open Scope D_scope.

Local Abbreviation fopp := SFopp.
Local Abbreviation fmul := (SFmul B64.prec B64.emax).
Local Abbreviation fsub := (SFsub B64.prec B64.emax).

Lemma binary_round_aux_opp (s : bool) (m e : Z) (l : location) :
fopp (binary_round_aux B64.prec B64.emax s m e l) =
binary_round_aux B64.prec B64.emax (negb s) m e l.
Proof.
unfold binary_round_aux.
destruct (shr_fexp _ _ m e l) as [mrs' e'].
destruct (shr_fexp _ _ _ e' loc_Exact) as [mrs'' e''].
destruct (shr_m mrs''); [reflexivity | | reflexivity].
destruct (e'' <=? _)%Z; reflexivity.
Qed.

Lemma binary_round_opp (s : bool) (m : positive) (e : Z) :
fopp (binary_round B64.prec B64.emax s m e) =
binary_round B64.prec B64.emax (negb s) m e.
Proof.
unfold binary_round. destruct (shl_align _ _ _) as [mz ez].
apply binary_round_aux_opp.
Qed.

Lemma fmul_opp_r (x y : spec_float) : fmul x (fopp y) = fopp (fmul x y).
Proof.
destruct x as [sx | sx | | sx mx ex], y as [sy | sy | | sy my ey]; cbn;
  try reflexivity; try (destruct sx, sy; reflexivity).
rewrite binary_round_aux_opp. now destruct sx, sy.
Qed.

Lemma fmul_opp_l (x y : spec_float) : fmul (fopp x) y = fopp (fmul x y).
Proof.
destruct x as [sx | sx | | sx mx ex], y as [sy | sy | | sy my ey]; cbn;
  try reflexivity; try (destruct sx, sy; reflexivity).
rewrite binary_round_aux_opp. now destruct sx, sy.
Qed.

Lemma binary_normalize_opp (z e : Z) :
B64.same_up_to_zero_sign
  (binary_normalize B64.prec B64.emax (- z) e false)
  (fopp (binary_normalize B64.prec B64.emax z e false)).
Proof.
destruct z as [| p | p]; cbn.
- right. eauto.
- left. now rewrite binary_round_opp.
- left. now rewrite binary_round_opp.
Qed.

Lemma fsub_opp (x y : spec_float) :
B64.same_up_to_zero_sign (fsub (fopp x) (fopp y)) (fopp (fsub x y)).
Proof.
destruct x as [sx | sx | | sx mx ex], y as [sy | sy | | sy my ey];
  try (left; reflexivity);
  try solve [destruct sx, sy; cbn; solve [left; reflexivity | right; eauto]].
cbn [SFsub SFopp].
set (a := Z.pos (fst (shl_align mx ex (Z.min ex ey)))).
set (b := Z.pos (fst (shl_align my ey (Z.min ex ey)))).
replace (cond_Zopp (negb sx) a - cond_Zopp (negb sy) b)%Z
  with (- (cond_Zopp sx a - cond_Zopp sy b))%Z
  by (destruct sx, sy; cbn; lia).
apply binary_normalize_opp.
Qed.

Lemma fmul_same (x y s : spec_float) :
B64.same_up_to_zero_sign x y -> B64.same_up_to_zero_sign (fmul x s) (fmul y s).
Proof.
intros [-> | (a & b & -> & ->)]; [now left |].
destruct s as [ss | ss | | ss ms es]; cbn; solve [now left | right; eauto].
Qed.

Lemma SFeqb_same (x : spec_float) : x = S754_nan \/ SFeqb x x = true.
Proof.
destruct x as [s | s | | s m e]; auto; right; unfold SFeqb; cbn;
  try reflexivity; destruct s;
  rewrite ?Z.compare_refl, ?Pos.compare_cont_refl; reflexivity.
Qed.

Lemma same_eqb (x y : spec_float) :
B64.same_up_to_zero_sign x y ->
(x = S754_nan /\ y = S754_nan) \/ SFeqb x y = true.
Proof.
intros [<- | (a & b & -> & ->)]; [| now right].
destruct (SFeqb_same x) as [-> | H]; auto.
Qed.

(** One entry of [jacp] against the entry of [jacc] built from the negated
  column. *)
Lemma entry_opp (pz p a b s : spec_float) :
let jp := (pz * a - p * b) * s in
let jc := (pz * (- a) - p * (- b)) * s in
(jp = S754_nan /\ jc = S754_nan) \/ SFeqb jp (- jc) = true.
Proof.
cbv zeta. cbn [dmul dsub dopp binary64].
rewrite !fmul_opp_r.
assert (H := fsub_opp (fmul pz a) (fmul p b)).
apply (fmul_same _ _ s) in H. rewrite fmul_opp_l in H.
set (u := fmul (fsub (fmul pz a) (fmul p b)) s) in *.
set (w := fmul (fsub (fopp (fmul pz a)) (fopp (fmul p b))) s) in *.
destruct H as [-> | (c & d & -> & Hu)].
- replace (fopp (fopp u)) with u by (now destruct u as [[] | [] | | [] ? ?]).
  destruct (SFeqb_same u) as [-> | H]; auto.
- right. destruct u as [s0 | | |]; try discriminate Hu. reflexivity.
Qed.

Lemma at_vopp3 (c0 c1 c2 : spec_float) (k : nat) :
(k < 3)%nat -> (vopp [c0; c1; c2]).[k] = - [c0; c1; c2].[k].
Proof. intros Hk. destruct k as [| [| [| k]]]; try lia; reflexivity. Qed.

(** X4.  On doubles: an entry of [jacp] and the entry of the translation
  block of [jacc] are both NaN, or the first [==] minus the second. *)
Lemma jacp_opp_jacc_binary64 {B : Build spec_float}
  (nd : Node spec_float) (pt : Point) (p : Proj spec_float) (i j : nat) :
length (w2n nd) = 3%nat -> (i < jrows p)%nat -> (j < 3)%nat ->
let x := coeff (jacp nd pt p) i j in
let y := coeff (jacc nd pt p) i j in
(x = S754_nan /\ y = S754_nan) \/ SFeqb x (- y) = true.
Proof.
intros Hw Hi Hj. cbv zeta. unfold jrows in Hi.
unfold jacp, jacc, jacobians.
destruct (stereo p).
- unfold jacobiansStereo. cbv zeta. cbn [fst snd].
  destruct (w2n nd) as [| r0 [| r1 [| r2 [| ? ?]]]]; try discriminate Hw.
  destruct i as [| [| [| i]]]; [| | | lia];
    destruct j as [| [| [| j]]]; try lia;
    cbn [coeff nth col map]; rewrite !at_vopp3 by lia; apply entry_opp.
- unfold jacobiansMono. cbv zeta. cbn [fst snd].
  destruct (w2n nd) as [| r0 [| r1 [| r2 [| ? ?]]]]; try discriminate Hw.
  destruct i as [| [| i]]; [| | lia];
    destruct j as [| [| [| j]]]; try lia;
    cbn [coeff nth col map]; rewrite !at_vopp3 by lia; apply entry_opp.
Qed.

(** *** The same value, up to the sign of a zero *)

Lemma same_opp (x y : spec_float) :
B64.same_up_to_zero_sign x y -> B64.same_up_to_zero_sign (fopp x) (fopp y).
Proof.
intros [-> | (a & b & -> & ->)]; [now left | right; cbn; eauto].
Qed.

Lemma same_sym (x y : spec_float) :
B64.same_up_to_zero_sign x y -> B64.same_up_to_zero_sign y x.
Proof.
intros [-> | (a & b & -> & ->)]; [now left | right; eauto].
Qed.

Lemma fopp_fopp (x : spec_float) : fopp (fopp x) = x.
Proof. destruct x as [[] | [] | | [] ? ?]; reflexivity. Qed.

Lemma entry_same (pz p a b s : spec_float) :
let jp := (pz * a - p * b) * s in
let jc := (pz * (- a) - p * (- b)) * s in
B64.same_up_to_zero_sign jp (- jc).
Proof.
cbv zeta. cbn [dmul dsub dopp binary64].
rewrite !fmul_opp_r.
assert (H := fsub_opp (fmul pz a) (fmul p b)).
apply (fmul_same _ _ s) in H. rewrite fmul_opp_l in H.
apply same_opp in H. rewrite fopp_fopp in H. now apply same_sym.
Qed.

(** C9, as it holds for the doubles the program computes with.  In both
  models, for every row i and every column j < 3, the entry jacp(i,j)
  and the negated entry -jacc(i,j) of the translation block are the same
  double, or they are both zeros (of either sign).  So they are both NaN
  or jacp(i,j) [==] -jacc(i,j); they need not be the same value. *)
Theorem jacp_opp_jacc_up_to_zero_sign {B : Build spec_float}
  (nd : Node spec_float) (pt : Point) (p : Proj spec_float) (i j : nat) :
length (w2n nd) = 3%nat -> (i < jrows p)%nat -> (j < 3)%nat ->
let x := coeff (jacp nd pt p) i j in
let y := coeff (jacc nd pt p) i j in
B64.same_up_to_zero_sign x (- y) /\
((x = S754_nan /\ y = S754_nan) \/ SFeqb x (- y) = true).
Proof.
intros Hw Hi Hj. cbv zeta.
assert (S : B64.same_up_to_zero_sign
              (coeff (jacp nd pt p) i j) (- coeff (jacc nd pt p) i j)).
{ unfold jrows in Hi. unfold jacp, jacc, jacobians.
  destruct (stereo p).
  - unfold jacobiansStereo. cbv zeta. cbn [fst snd].
    destruct (w2n nd) as [| r0 [| r1 [| r2 [| ? ?]]]]; try discriminate Hw.
    destruct i as [| [| [| i]]]; [| | | lia];
      destruct j as [| [| [| j]]]; try lia;
      cbn [coeff nth col map]; rewrite !at_vopp3 by lia; apply entry_same.
  - unfold jacobiansMono. cbv zeta. cbn [fst snd].
    destruct (w2n nd) as [| r0 [| r1 [| r2 [| ? ?]]]]; try discriminate Hw.
    destruct i as [| [| i]]; [| | lia];
      destruct j as [| [| [| j]]]; try lia;
      cbn [coeff nth col map]; rewrite !at_vopp3 by lia; apply entry_same. }
split; [exact S |].
destruct (same_eqb _ _ S) as [[Hx Hy] | H]; [left | now right].
split; [exact Hx |].
destruct (coeff (jacc nd pt p) i j) as [[] | [] | | [] ? ?];
  try discriminate Hy; reflexivity.
Qed.

(** *** Multiplication by 1.0 *)

(** 1.0 times a double is that double.  ([spec_float] also holds triples
  that are not doubles, with a mantissa that is not normalised or an
  exponent out of range; [valid_binary] tells the doubles.) *)
Lemma fmul_one_l (x : spec_float) :
valid_binary B64.prec B64.emax x = true -> fmul B64.one x = x.
Proof.
destruct x as [s | s | | s m e]; try reflexivity.
cbn [valid_binary]. unfold bounded, canonical_mantissa.
intros H. apply andb_prop in H. destruct H as [Hc He].
apply Z.eqb_eq in Hc.
unfold B64.one. cbn [SFmul xorb].
unfold binary_round_aux, shr_fexp.
cbv [Pos.mul]. cbn [Zdigits2 digits2_pos].
set (d := digits2_pos m) in *.
match goal with |- context [(Z.pos ?q + (-52 + e))%Z] =>
  replace (Z.pos q + (-52 + e))%Z with (Z.pos d + e)%Z by lia end.
rewrite Hc.
replace (e - (-52 + e))%Z with 52%Z by lia.
cbn [shr shr_record_of_loc SpecFloat.iter_pos shr_1 orb].
cbn [shr_m loc_of_shr_record round_nearest_even Zdigits2].
fold d. replace (-52 + e + 52)%Z with e by lia.
rewrite Hc, Z.sub_diag. cbn [shr shr_m shr_record_of_loc].
rewrite He. reflexivity.
Qed.

(** So with [qScale = 1.0] the scaling of lines 67 and 167 changes
  nothing, for every node and point. *)
Lemma qScale_one_binary64 {B : Build spec_float}
  (nd : Node spec_float) (pt : Point) :
qScale = B64.one ->
valid_binary B64.prec B64.emax (ipz2fx nd pt) = true ->
qScale * ipz2fx nd pt = ipz2fx nd pt.
Proof. intros -> H. now apply fmul_one_l. Qed.
End Binary64.

(** ** The node: [SBANode::addProj] *)

Section Facade.
Context {D : Type} {A : Arith D}.
Import Eigen Sba SbaNode.

Lemma subscript_absent (m : gmap Z Z) (k : Z) :
  m !! k = None -> subscript m k = (0, <[k := 0]> m).
Proof. unfold subscript. now intros ->. Qed.

Lemma subscript_lookup (m : gmap Z Z) (k : Z) :
  (subscript m k).2 !! k = Some (subscript m k).1.
Proof.
  unfold subscript. destruct (m !! k) eqn:E; cbn; [exact E |].
  apply lookup_insert_eq.
Qed.

Lemma SysSBA_addProj_sizes (s : SysSBA D) (ci pi : Z) (q : list D) (st : bool) :
  length (nodes (SysSBA_addProj s ci pi q st)) = length (nodes s) /\
  length (tracks (SysSBA_addProj s ci pi q st)) = length (tracks s).
Proof.
  unfold SysSBA_addProj.
  destruct (_ && _); cbn; rewrite ?length_alter; auto.
Qed.

(** X2.  [addProj] never changes the number of nodes or of tracks. *)
Lemma addProj_sizes (n : SBANode D) (msg : Projection D) :
  length (nodes (sba (addProj n msg))) = length (nodes (sba n)) /\
  length (tracks (sba (addProj n msg))) = length (tracks (sba n)).
Proof.
  unfold addProj.
  destruct (subscript (node_indices n) _) as [r1 m1].
  destruct (subscript (point_indices n) _) as [r2 m2].
  destruct (_ && _); cbn [sba]; [apply SysSBA_addProj_sizes | auto].
Qed.

(** A camera id that is not mapped is mapped to the internal index 0 once
    [addProj] has run, and likewise a point id. *)
Lemma addProj_maps_unmapped (n : SBANode D) (msg : Projection D) :
  (node_indices n !! to_unsigned (camindex msg) = None ->
   node_indices (addProj n msg) = <[to_unsigned (camindex msg) := 0]> (node_indices n)) /\
  (point_indices n !! to_unsigned (pointindex msg) = None ->
   point_indices (addProj n msg) = <[to_unsigned (pointindex msg) := 0]> (point_indices n)).
Proof.
  unfold addProj.
  destruct (subscript (node_indices n) _) as [r1 m1] eqn:E1.
  destruct (subscript (point_indices n) _) as [r2 m2] eqn:E2.
  split; intros H.
  - rewrite (subscript_absent _ _ H) in E1. inversion E1; subst.
    now destruct (_ && _).
  - rewrite (subscript_absent _ _ H) in E2. inversion E2; subst.
    now destruct (_ && _).
Qed.

(** X5.  With an unmapped camera id, a point id mapped to a track and a
    graph that holds a node, nothing is logged and the observation is
    attached to the track, as an observation by node 0. *)
Lemma addProj_unmapped_accepted (n : SBANode D) (msg : Projection D) (pi : Z) :
  node_indices n !! to_unsigned (camindex msg) = None ->
  point_indices n !! to_unsigned (pointindex msg) = Some pi ->
  0 <= pi < Z.of_nat (length (tracks (sba n))) ->
  (0 < length (nodes (sba n)))%nat ->
  Z.of_nat (length (nodes (sba n))) < 2 ^ 31 ->
  Z.of_nat (length (tracks (sba n))) < 2 ^ 31 ->
  rosout (addProj n msg) = rosout n /\
  tracks (sba (addProj n msg)) =
    alter (attach (Proj_ 0 [u msg; v msg; d msg] (pr_stereo msg)))
          (Z.to_nat pi) (tracks (sba n)).
Proof.
  intros Hc Hp Hpi Hn Hns Hts. unfold addProj.
  rewrite (subscript_absent _ _ Hc).
  assert (Es : subscript (point_indices n) (to_unsigned (pointindex msg)) =
               (pi, point_indices n)) by (unfold subscript; now rewrite Hp).
  rewrite Es.
  assert (Ei : forall z, 0 <= z < 2 ^ 31 -> to_int z = z).
  { intros z Hz. unfold to_int. rewrite Z.mod_small by lia.
    destruct (Z.ltb_spec z (2 ^ 31)); lia. }
  rewrite !Ei by lia.
  assert (Hlt1 : (pi <? Z.of_nat (length (tracks (sba n)))) = true)
    by (apply Z.ltb_lt; lia).
  assert (Hlt2 : (0 <? Z.of_nat (length (nodes (sba n)))) = true)
    by (apply Z.ltb_lt; lia).
  assert (Hle : (0 <=? pi) = true) by (apply Z.leb_le; lia).
  rewrite Hlt1, Hlt2. cbn [andb sba rosout]. split; [reflexivity |].
  unfold SysSBA_addProj. rewrite Hlt1, Hlt2, Hle. reflexivity.
Qed.
End Facade.

Section FacadeRun.
Import Eigen Sba SbaNode Ex.

(** C2 (the code departs from it).  The graph holds one camera (external
    id 0) and one point (external id 0); a projection message names camera
    7, which was never added.  [addProj] logs nothing, attaches the
    observation to the track of the point as an observation by node 0, and
    leaves camera id 7 mapped to 0 in [node_indices]. *)
Theorem addProj_accepts_unmapped_camera :
  let n := one_camera_one_point in
  let n' := addProj n proj_msg in
  node_indices n !! 7 = None /\
  rosout n' = [] /\
  nprojs (sba n) = 0%nat /\
  nprojs (sba n') = 1%nat /\
  map (fun t => map ndi (projections t)) (tracks (sba n')) = [[0]] /\
  node_indices n' !! 7 = Some 0 /\
  node_indices n' <> node_indices n.
Proof.
  cbv zeta.
  assert (H7 : node_indices (addProj one_camera_one_point proj_msg) !! 7 = Some 0)
    by (vm_compute; reflexivity).
  assert (H0 : node_indices one_camera_one_point !! 7 = None)
    by (vm_compute; reflexivity).
  repeat split; try (vm_compute; reflexivity); try assumption.
  intros E. rewrite E in H7. congruence.
Qed.
End FacadeRun.

(** ** Ingestion: [publishFrame] *)

Section Ingestion.
Context {D : Type} {A : Arith D}.
Context {Header CameraInfo : Type}.
Variable info_header : CameraInfo -> Header.
Import FrameDisparity.
Local Open Scope D_scope.

Implicit Types (kpts : list (@KeyPoint D)) (dtors disp_image : @Mat D).

Lemma publishFrame_keypoint kpts dtors disp_image (l r : CameraInfo) (i : nat) :
  keypoints (publishFrame info_header kpts dtors disp_image l r) !! i =
  keypoint_msg disp_image dtors i <$> kpts !! i.
Proof. unfold publishFrame. cbn [keypoints]. apply list_lookup_imap. Qed.

Lemma publishFrame_length kpts dtors disp_image (l r : CameraInfo) :
  length (keypoints (publishFrame info_header kpts dtors disp_image l r)) =
  length kpts.
Proof. unfold publishFrame. cbn [keypoints]. apply length_imap. Qed.

(** C7.  For each detected keypoint, what [publishFrame] stores as its
    disparity comes from the element of the disparity image whose row and
    column are both the keypoint's y-coordinate (converted to [int]): with
    [v] that element, the message holds [d = v] and [goodPt = true] when
    [v > 0], and [d = 10] and [goodPt = false] otherwise; its [x] and [y]
    are the keypoint's.  The keypoint's x-coordinate is not used in the
    lookup. *)
Theorem publishFrame_reads_disparity_at_y_y
    kpts dtors disp_image (l r : CameraInfo) (i : nat) (k : KeyPoint) :
  kpts !! i = Some k ->
  let y := dtoint (pt_y k) in
  let v := at_ disp_image y y in
  exists m,
    keypoints (publishFrame info_header kpts dtors disp_image l r) !! i = Some m /\
    kx m = pt_x k /\ ky m = pt_y k /\
    kd m = (if d0 <? v then v else d10) /\
    goodPt m = (d0 <? v).
Proof.
  intros Hk. cbv zeta. eexists. split.
  - rewrite publishFrame_keypoint, Hk. reflexivity.
  - unfold keypoint_msg, lookup_disp.
    destruct (d0 <? _); repeat split; reflexivity.
Qed.

(** C10.  Every keypoint [m] of the published message has [goodPt] true
    exactly when the disparity looked up for it is [> 0]; if [goodPt] is
    false its [d] is 10.0, otherwise [d] is the disparity looked up. *)
Theorem publishFrame_goodPt
    kpts dtors disp_image (l r : CameraInfo) (i : nat) (m : Keypoint) :
  keypoints (publishFrame info_header kpts dtors disp_image l r) !! i = Some m ->
  exists k,
    kpts !! i = Some k /\
    let disp := lookup_disp disp_image k in
    (goodPt m = true <-> (d0 <? disp) = true) /\
    (goodPt m = false -> kd m = d10) /\
    (goodPt m = true -> kd m = disp).
Proof.
  rewrite publishFrame_keypoint. intros H.
  destruct (kpts !! i) as [k |] eqn:Hk; [| discriminate].
  exists k. split; [reflexivity |]. cbn in H. inversion H; subst m. clear H.
  cbv zeta. unfold keypoint_msg.
  destruct (d0 <? lookup_disp disp_image k); cbn [goodPt kd set_goodPt set_d];
    repeat split; intros; congruence.
Qed.
End Ingestion.

(** ** The theorems at concrete inputs *)

Section Runs.
Import Eigen Sba Ex.
Local Open Scope D_scope.

Lemma calcErr_behind_camera_witness :
  let B := build_b64 false in
  (depth (cam f) (pt_behind f) <=? d0) = true /\
  err (fst (calcErr (cam f) (pt_behind f) (obs f true))) = [d0; d0; d0] /\
  snd (calcErr (cam f) (pt_behind f) (obs f true)) = d0.
Proof.
  intros B. split; [vm_compute; reflexivity |].
  apply (calcErr_behind_camera (cam f) (pt_behind f) (obs f true)).
  vm_compute. reflexivity.
Defined.

Lemma calcErr_cost_is_getErrSquaredNorm_witness :
  let B := build_b64 false in
  getErrSquaredNorm (fst (calcErr (cam f) (pt_front f) (obs f false))) =
  snd (calcErr (cam f) (pt_front f) (obs f false)).
Proof.
  intros B.
  exact (proj1 (calcErr_cost_is_getErrSquaredNorm (L := binary64_laws)
                  (cam f) (pt_front f) (obs f false))).
Defined.

Lemma calcErr_stereo_residual_witness :
  let B := build_b64 false in
  (d0 <? depth (cam f) (pt_front f)) = true /\
  err (fst (calcErr (cam f) (pt_front f) (obs f true))) = [f 10; f (-10); f 10].
Proof.
  intros B. split; [vm_compute; reflexivity |].
  rewrite (calcErr_stereo_residual (L := binary64_laws)
             (cam f) (pt_front f) (obs f true)).
  - vm_compute. reflexivity.
  - reflexivity.
  - repeat split; reflexivity.
  - repeat split; reflexivity.
  - vm_compute. reflexivity.
Defined.

Lemma setJacobians_blocks_witness :
  let B := build_b64 false in
  (exists p',
     setJacobians (cam f) (pt_front f) (obs f false) = Some p' /\
     coeff (Hpp p') 0 0 =
       sigma 2 (fun k => coeff (jacp (cam f) (pt_front f) (obs f false)) k 0 *
                         coeff (jacp (cam f) (pt_front f) (obs f false)) k 0) /\
     (Bp p').[0] =
       sigma 2 (fun k => coeff (jacp (cam f) (pt_front f) (obs f false)) k 0 *
                         (err (obs f false)).[k])) /\
  (exists p',
     setJacobians (cam f) (pt_front f) (obs f true) = Some p' /\
     coeff (Hpp p') 0 0 =
       sigma 3 (fun k => coeff (jacp (cam f) (pt_front f) (obs f true)) k 0 *
                         coeff (jacp (cam f) (pt_front f) (obs f true)) k 0) /\
     (Bp p').[0] =
       sigma 3 (fun k => coeff (jacp (cam f) (pt_front f) (obs f true)) k 0 *
                         (err (obs f true)).[k])).
Proof.
  intros B. split.
  - destruct (setJacobians_blocks (cam f) (pt_front f) (obs f false))
      as (p' & H & Hpp & _ & _ & _ & HBp);
      [reflexivity | vm_compute; reflexivity | vm_compute; reflexivity |].
    exists p'. split; [exact H |]. split; [apply Hpp; lia | apply HBp; lia].
  - destruct (setJacobians_blocks (cam f) (pt_front f) (obs f true))
      as (p' & H & Hpp & _ & _ & _ & HBp);
      [reflexivity | vm_compute; reflexivity | vm_compute; reflexivity |].
    exists p'. split; [exact H |]. split; [apply Hpp; lia | apply HBp; lia].
Defined.

(** The mono blocks of that run, evaluated: [Hpp(0,0)] is 250*250 and
    [Bp(0)] is 250*10, from the first two coefficients of [err] only. *)
Lemma setJacobians_mono_run :
  let B := build_b64 false in
  exists p',
    setJacobians (cam f) (pt_front f) (obs f false) = Some p' /\
    coeff (Hpp p') 0 0 = f 62500 /\ (Bp p').[0] = f 2500.
Proof. vm_compute. eexists. repeat split; reflexivity. Qed.


Lemma jacp_is_opp_jacc_witness :
  let B := build_exact in
  coeff (jacp (cam q) (pt_front q) (obs q true)) 2 0 =
  - coeff (jacc (cam q) (pt_front q) (obs q true)) 2 0.
Proof.
  intros B.
  apply (jacp_is_opp_jacc exact_ring (cam q) (pt_front q) (obs q true) 2 0).
  - cbn. lia.
  - lia.
Defined.

Lemma jacp_opp_jacc_up_to_zero_sign_witness :
  let B := build_b64_q1 in
  let x := coeff (jacp (cam f) (pt_front f) (obs f false)) 1 0 in
  let y := coeff (jacc (cam f) (pt_front f) (obs f false)) 1 0 in
  B64.same_up_to_zero_sign x (- y) /\
  ((x = S754_nan /\ y = S754_nan) \/ SFeqb x (- y) = true).
Proof.
  intros B.
  apply (jacp_opp_jacc_up_to_zero_sign (cam f) (pt_front f) (obs f false) 1 0).
  - reflexivity.
  - cbn. lia.
  - lia.
Defined.

(** Where the equality jacp(i,j) = -jacc(i,j) fails on doubles.
    (1) Camera [cam] and the point (1,1,2) at depth 2, mono: jacp(1,0) is
    +0 and -jacc(1,0) is -0, which are not the same double.
    (2) Camera [cam] and the point (1,1,0), mono: [setJacobians] returns,
    jacp(0,0) and -jacc(0,0) are both NaN, and NaN [==] NaN is false. *)
Lemma jacp_differs_from_opp_jacc :
  let B := build_b64_q1 in
  (let x := coeff (jacp (cam f) (pt_front f) (obs f false)) 1 0 in
   let y := coeff (jacc (cam f) (pt_front f) (obs f false)) 1 0 in
   (d0 <? depth (cam f) (pt_front f)) = true /\
   x = S754_zero false /\ - y = S754_zero true /\ x <> - y) /\
  (let x := coeff (jacp (cam f) (pt_plane f) (obs f false)) 0 0 in
   let y := coeff (jacc (cam f) (pt_plane f) (obs f false)) 0 0 in
   (exists p', setJacobians (cam f) (pt_plane f) (obs f false) = Some p') /\
   x = S754_nan /\ - y = S754_nan /\ SFeqb x (- y) = false).
Proof.
  intros B. split; cbv zeta.
  - vm_compute. repeat split; try reflexivity. discriminate.
  - split; [vm_compute; eexists; reflexivity |].
    vm_compute. repeat split; reflexivity.
Qed.

Lemma stereo_mono_agree_unscaled_witness :
  let B := {| qScale := q 1; DEBUG := false; mono_err2 := fun _ => q 0 |} in
  coeff (snd (fst (jacobiansStereo (cam q) (pt_front q)))) 0 0 =
  coeff (snd (fst (jacobiansMono (cam q) (pt_front q)))) 0 0.
Proof.
  intros B.
  exact (proj1 (stereo_mono_agree_unscaled exact_ring (cam q) (pt_front q) 0 0
                  eq_refl (Nat.lt_0_succ 1))).
Defined.

Lemma setJacobians_traps_on_nan_witness :
  let B := build_b64 false in
  setJacobians (cam f) pt_nan (obs f true) = None.
Proof.
  intros B. apply setJacobians_traps_on_nan. vm_compute. reflexivity.
Defined.

Lemma jacp_opp_jacc_binary64_witness :
  let B := build_b64 false in
  let x := coeff (jacp (cam f) (pt_plane f) (obs f true)) 1 1 in
  let y := coeff (jacc (cam f) (pt_plane f) (obs f true)) 1 1 in
  (x = S754_nan /\ y = S754_nan) \/ SFeqb x (- y) = true.
Proof.
  intros B.
  apply (jacp_opp_jacc_binary64 (cam f) (pt_plane f) (obs f true) 1 1).
  - reflexivity.
  - cbn. lia.
  - lia.
Defined.

Import SbaNode.

Lemma addProj_unmapped_accepted_witness :
  rosout (addProj one_camera_one_point proj_msg) = [] /\
  map (fun t => length (projections t))
      (tracks (sba (addProj one_camera_one_point proj_msg))) = [1%nat].
Proof.
  destruct (addProj_unmapped_accepted one_camera_one_point proj_msg 0) as [H1 H2].
  - vm_compute. reflexivity.
  - vm_compute. reflexivity.
  - vm_compute. split; [discriminate | reflexivity].
  - vm_compute. lia.
  - vm_compute. reflexivity.
  - vm_compute. reflexivity.
  - rewrite H1, H2. split; vm_compute; reflexivity.
Defined.

Import FrameDisparity.

Lemma publishFrame_reads_disparity_at_y_y_witness :
  exists m,
    keypoints (publishFrame (fun _ : unit => tt) kpts2 dtors2 disp3 tt tt) !! 0%nat
      = Some m /\
    kx m = half 5 /\ ky m = half 3 /\ kd m = f 10 /\ goodPt m = false.
Proof.
  exact (publishFrame_reads_disparity_at_y_y (fun _ : unit => tt)
           kpts2 dtors2 disp3 tt tt 0 _ eq_refl).
Defined.

(** The first keypoint of [kpts2] is at (x, y) = (2.5, 1.5): line 244
    reads element (1,1) of the image, which is 0; element (1,2), row y and
    column x, is 5. *)
Lemma lookup_at_y_y_is_not_at_y_x :
  forall k, kpts2 !! 0%nat = Some k ->
  lookup_disp disp3 k = f 0 /\ disp_at_xy disp3 k = f 5.
Proof.
  intros k Hk. vm_compute in Hk. inversion Hk; subst k.
  split; vm_compute; reflexivity.
Qed.

Lemma publishFrame_goodPt_witness :
  exists m,
    keypoints (publishFrame (fun _ : unit => tt) kpts2 dtors2 disp3 tt tt) !! 1%nat
      = Some m /\
    goodPt m = true /\ kd m = f 8.
Proof.
  destruct (keypoints (publishFrame (fun _ : unit => tt) kpts2 dtors2 disp3 tt tt) !! 1%nat)
    as [m |] eqn:E; [| vm_compute in E; discriminate E].
  exists m. split; [reflexivity |].
  destruct (publishFrame_goodPt _ _ _ _ _ _ _ _ E) as (k & Hk & Hg & _ & Hd).
  vm_compute in Hk. inversion Hk; subst k. clear Hk.
  assert (G : goodPt m = true) by (apply Hg; vm_compute; reflexivity).
  split; [exact G |]. rewrite (Hd G). vm_compute. reflexivity.
Defined.
End Runs.

(** * More properties of the sources *)

(** ** proj.cpp: what [calcErr] reads and returns *)

Section ResidualMore.
Context {D : Type} {A : Arith D} {B : Build D} {Q : Eigen.Quotient1 D}.
Import Eigen Sba.
Local Open Scope D_scope.

Lemma calcErr_reads (nd : Node D) (pt : Point) (p q : Proj D) :
  kp p = kp q -> stereo p = stereo q ->
  snd (calcErr nd pt p) = snd (calcErr nd pt q) /\
  err (fst (calcErr nd pt p)) = err (fst (calcErr nd pt q)).
Proof.
  intros Hk Hs. unfold calcErr, calcErrStereo_, calcErrMono_.
  rewrite <- Hs, <- Hk.
  destruct (stereo p); destruct (_ <=? d0); split; reflexivity.
Qed.

Lemma calcErr_keeps (nd : Node D) (pt : Point) (p : Proj D) :
  fst (calcErr nd pt p) = with_err p (err (fst (calcErr nd pt p))).
Proof.
  unfold calcErr, calcErrStereo_, calcErrMono_.
  destruct (stereo p); destruct (_ <=? d0); reflexivity.
Qed.

(** X6.  [calcErr] reads of the projection its keypoint and its [stereo]
    flag only: two projections that agree on these get the same cost and
    the same residual, whatever residual and blocks they held; and it
    changes nothing but [err].  So calling it again gives the same
    result. *)
Theorem calcErr_idempotent (nd : Node D) (pt : Point) (p : Proj D) :
  (forall q : Proj D, kp p = kp q -> stereo p = stereo q ->
     snd (calcErr nd pt p) = snd (calcErr nd pt q) /\
     err (fst (calcErr nd pt p)) = err (fst (calcErr nd pt q))) /\
  (let p' := fst (calcErr nd pt p) in
   ndi p' = ndi p /\ kp p' = kp p /\ stereo p' = stereo p /\
   isValid p' = isValid p /\ Hpp p' = Hpp p /\ Hcc p' = Hcc p /\
   Hpc p' = Hpc p /\ JcTE p' = JcTE p /\ Bp p' = Bp p) /\
  calcErr nd pt (fst (calcErr nd pt p)) = calcErr nd pt p.
Proof.
  split; [intros q; apply calcErr_reads |].
  split; [cbv zeta; rewrite calcErr_keeps; repeat split |].
  unfold calcErr, calcErrStereo_, calcErrMono_.
  destruct (stereo p) eqn:Hs; destruct (_ <=? d0) eqn:Hg;
    cbn [fst with_err stereo kp]; rewrite ?Hs, ?Hg; reflexivity.
Qed.

(** X7.  For a mono projection with positive depth, the first two
    coefficients of the residual [calcErr] stores are what Eigen's
    quotient functor yields for the first two coordinates of [w2i * pt]
    and the third (their quotients, computed by division or through the
    reciprocal as the release of Eigen has it), minus the keypoint's, and
    the cost is the sum of their squares: the third coefficient of the
    keypoint and of the residual play no part. *)
Theorem calcErr_mono_residual {L : ArithLaws D}
    (nd : Node D) (pt : Point) (p : Proj D) :
  stereo p = false -> Node_sized nd -> Proj_sized p ->
  (d0 <? depth nd pt) = true ->
  let p1 := mulv (w2i nd) pt in
  let e := err (fst (calcErr nd pt p)) in
  e.[0] = scalar_quotient1 p1.[0] p1.[2] - (kp p).[0] /\
  e.[1] = scalar_quotient1 p1.[1] p1.[2] - (kp p).[1] /\
  snd (calcErr nd pt p) = e.[0] * e.[0] + e.[1] * e.[1].
Proof.
  intros Hs (_ & Hi & _) (Hk & _) Hpos. cbv zeta.
  apply dlt_0_not_le in Hpos. unfold depth in Hpos.
  unfold calcErr, calcErrMono_. rewrite Hs, Hpos. cbn [fst snd with_err err].
  destruct (w2i nd) as [| r0 [| r1 [| r2 [| ? ?]]]]; try discriminate Hi.
  destruct (kp p) as [| k0 [| k1 [| k2 [| ? ?]]]]; try discriminate Hk.
  repeat split; reflexivity.
Qed.
End ResidualMore.

(** ** proj.cpp on binary64: the cost is never negative *)

Section CostSign.
Import Eigen Sba.
Context {Q : Quotient1 spec_float}.
Local Open Scope D_scope.

Local Abbreviation nn := B64More.nonneg_or_nan.

Lemma binary_round_aux_nn (m e : Z) (l : location) :
  nn (binary_round_aux B64.prec B64.emax false m e l) = true.
Proof.
  unfold binary_round_aux.
  destruct (shr_fexp _ _ m e l) as [mrs' e'].
  destruct (shr_fexp _ _ _ e' loc_Exact) as [mrs'' e''].
  destruct (shr_m mrs''); [reflexivity | | reflexivity].
  destruct (e'' <=? _)%Z; reflexivity.
Qed.

Lemma binary_round_nn (m : positive) (e : Z) :
  nn (binary_round B64.prec B64.emax false m e) = true.
Proof.
  unfold binary_round. destruct (shl_align _ _ _) as [mz ez].
  apply binary_round_aux_nn.
Qed.

Lemma square_nn (x : spec_float) : nn (x * x) = true.
Proof.
  destruct x as [s | s | | s m e]; try reflexivity;
    try (destruct s; reflexivity).
  destruct s; apply binary_round_aux_nn.
Qed.

Lemma add_nn (x y : spec_float) :
  nn x = true -> nn y = true -> nn (x + y) = true.
Proof.
  destruct x as [sx | sx | | sx mx ex], y as [sy | sy | | sy my ey];
    cbn; try reflexivity; try (destruct sx, sy; cbn; congruence).
  destruct sx, sy; cbn; try discriminate. intros _ _.
  apply binary_round_nn.
Qed.

Lemma dot_from_nn (v : list spec_float) (acc : spec_float) :
  nn acc = true -> nn (dot_from acc v v) = true.
Proof.
  revert acc. induction v as [| x v IH]; intros acc Hacc; cbn; [exact Hacc |].
  apply IH. apply add_nn; [exact Hacc | apply square_nn].
Qed.

Lemma squaredNorm_nn (v : list spec_float) : nn (squaredNorm v) = true.
Proof.
  unfold squaredNorm, dot. destruct v as [| x v]; [reflexivity |].
  apply dot_from_nn, square_nn.
Qed.

Lemma nn_not_negative (x : spec_float) :
  nn x = true ->
  SFltb x d0 = false /\ (x = S754_nan \/ SFleb d0 x = true).
Proof.
  destruct x as [s | s | | s m e]; cbn; try (destruct s; cbn; intros; try discriminate);
    try (split; [reflexivity | auto]).
Qed.

(** X8.  On doubles the cost that [calcErr] returns, and the value that
    [getErrSquaredNorm] returns for any stored residual, is never
    negative: it is NaN or [>= 0], and [cost < 0] is false. *)
Theorem cost_never_negative {B : Build spec_float}
    (nd : Node spec_float) (pt : Point) (p : Proj spec_float) :
  let cost := snd (calcErr nd pt p) in
  (SFltb cost d0 = false /\ (cost = S754_nan \/ SFleb d0 cost = true)) /\
  (SFltb (getErrSquaredNorm p) d0 = false /\
   (getErrSquaredNorm p = S754_nan \/ SFleb d0 (getErrSquaredNorm p) = true)).
Proof.
  cbv zeta. split; apply nn_not_negative.
  - unfold calcErr, calcErrStereo_, calcErrMono_.
    destruct (stereo p); destruct (_ <=? d0); cbn [snd];
      try reflexivity; apply squaredNorm_nn.
  - unfold getErrSquaredNorm. destruct (stereo p); apply squaredNorm_nn.
Qed.
End CostSign.

(** ** proj.cpp: the shape of the cached blocks *)

Section Blocks.
Context {D : Type} {A : Arith D} {B : Build D}.
Import Eigen Sba.
Local Open Scope D_scope.

Lemma dot_from_comm (Hc : forall x y : D, x * y = y * x)
    (a b : list D) (acc : D) :
  dot_from acc a b = dot_from acc b a.
Proof.
  revert b acc. induction a as [| x a IH]; intros [| y b] acc; cbn; auto.
  rewrite (Hc x y). apply IH.
Qed.

Lemma dot_comm (Hc : forall x y : D, x * y = y * x) (a b : list D) :
  dot a b = dot b a.
Proof.
  destruct a as [| x a], b as [| y b]; cbn; auto.
  rewrite (Hc x y). now apply dot_from_comm.
Qed.

(** X9.  The blocks [Hpp] and [Hcc] that [setJacobians] stores are
    symmetric, given only that the product of two numbers does not depend
    on their order (true of doubles). *)
Theorem setJacobians_symmetric (Hc : forall x y : D, x * y = y * x)
    (nd : Node D) (pt : Point) (p p' : Proj D) :
  setJacobians nd pt p = Some p' ->
  (forall i j, (i < 3)%nat -> (j < 3)%nat ->
     coeff (Hpp p') i j = coeff (Hpp p') j i) /\
  (forall i j, (i < 6)%nat -> (j < 6)%nat ->
     coeff (Hcc p') i j = coeff (Hcc p') j i).
Proof.
  intros H. apply setJacobians_Some in H. cbv zeta in H. subst p'.
  cbn [Hpp Hcc with_blocks].
  split; intros i j Hi Hj; rewrite !coeff_transpose_mul by assumption;
    now apply dot_comm.
Qed.

(** X10.  [setJacobians] changes nothing of the projection but the five
    blocks, and what it stores does not depend on the blocks held before:
    run again on its own result, it returns that result. *)
Theorem setJacobians_stable (nd : Node D) (pt : Point) (p p' : Proj D) :
  setJacobians nd pt p = Some p' ->
  (ndi p' = ndi p /\ kp p' = kp p /\ err p' = err p /\
   stereo p' = stereo p /\ isValid p' = isValid p) /\
  setJacobians nd pt p' = Some p'.
Proof.
  unfold setJacobians, setJacobiansStereo_, setJacobiansMono_.
  destruct (stereo p) eqn:Hs.
  - destruct (jacobiansStereo nd pt) as [[ipz2 jc] jp].
    destruct (disnan ipz2); [discriminate |].
    destruct (DEBUG && nan_in_jacc jc); [discriminate |].
    intros H. inversion H; subst p'; clear H.
    cbn [ndi kp err stereo isValid with_blocks]. rewrite Hs.
    split; [repeat split |]. reflexivity.
  - destruct (jacobiansMono nd pt) as [[ipz2 jc] jp].
    destruct (disnan ipz2); [discriminate |].
    destruct (DEBUG && nan_in_jacc jc); [discriminate |].
    intros H. inversion H; subst p'; clear H.
    cbn [ndi kp err stereo isValid with_blocks]. rewrite Hs.
    split; [repeat split |]. reflexivity.
Qed.

(** With no baseline the row of the right image is the row of the left
    image. *)
Lemma stereo_rows_zero_baseline (H0 : forall x : D, x - d0 = x)
    (nd : Node D) (pt : Point) (j : nat) :
  baseline nd = d0 ->
  coeff (snd (fst (jacobiansStereo nd pt))) 2 j =
    coeff (snd (fst (jacobiansStereo nd pt))) 0 j /\
  coeff (snd (jacobiansStereo nd pt)) 2 j =
    coeff (snd (jacobiansStereo nd pt)) 0 j.
Proof.
  intros Hb. unfold jacobiansStereo. cbv zeta. cbn [fst snd].
  rewrite Hb, H0.
  destruct j as [| [| [| [| [| [| j]]]]]]; split; reflexivity.
Qed.

(** X11.  For a stereo projection on a node whose baseline is 0, the
    third row of both Jacobians (the right image) equals the first (the
    left image), given only that [x - 0 = x] (true of doubles). *)
Theorem stereo_zero_baseline (H0 : forall x : D, x - d0 = x)
    (nd : Node D) (pt : Point) (p : Proj D) (j : nat) :
  stereo p = true -> baseline nd = d0 ->
  coeff (jacc nd pt p) 2 j = coeff (jacc nd pt p) 0 j /\
  coeff (jacp nd pt p) 2 j = coeff (jacp nd pt p) 0 j.
Proof.
  intros Hs Hb. unfold jacc, jacp, jacobians. rewrite Hs.
  now apply stereo_rows_zero_baseline.
Qed.

Section Exact.
Hypothesis R : ExactRing D.

Lemma exact_ring_theory2 : ring_theory d0 d1 dadd dmul dsub dopp (@eq D).
Proof. exact R. Qed.

Add Ring Dring2 : exact_ring_theory2.

Lemma at_vopp_exact (v : list D) (i : nat) : (vopp v).[i] = - v.[i].
Proof.
  unfold at_, vopp.
  replace d0 with (- d0) at 1 by ring. apply map_nth.
Qed.

Lemma jac_cols_opp (nd : Node D) (pt : Point) (p : Proj D) (j : nat) :
  (j < 3)%nat ->
  col (jacp nd pt p) j = vopp (col (jacc nd pt p) j).
Proof.
  intros Hj. unfold jacp, jacc, jacobians.
  destruct (stereo p).
  - unfold jacobiansStereo. cbv zeta. cbn [fst snd col map vopp].
    destruct j as [| [| [| j]]]; try lia;
      cbn [at_ nth]; repeat f_equal;
      rewrite ?at_vopp_exact; ring.
  - unfold jacobiansMono. cbv zeta. cbn [fst snd col map vopp].
    destruct j as [| [| [| j]]]; try lia;
      cbn [at_ nth]; repeat f_equal;
      rewrite ?at_vopp_exact; ring.
Qed.

Lemma dot_from_vopp_l (a b : list D) (acc : D) :
  dot_from (- acc) (vopp a) b = - dot_from acc a b.
Proof.
  revert b acc. induction a as [| x a IH]; intros [| y b] acc; cbn; auto.
  rewrite <- IH. f_equal. ring.
Qed.

Lemma dot_vopp_l (a b : list D) : dot (vopp a) b = - dot a b.
Proof.
  destruct a as [| x a], b as [| y b]; cbn; try ring.
  rewrite <- dot_from_vopp_l. f_equal. ring.
Qed.

Lemma dot_from_vopp_r (a b : list D) (acc : D) :
  dot_from (- acc) a (vopp b) = - dot_from acc a b.
Proof.
  revert b acc. induction a as [| x a IH]; intros [| y b] acc; cbn; auto.
  rewrite <- IH. f_equal. ring.
Qed.

Lemma dot_vopp_r (a b : list D) : dot a (vopp b) = - dot a b.
Proof.
  destruct a as [| x a], b as [| y b]; cbn; try ring.
  rewrite <- dot_from_vopp_r. f_equal. ring.
Qed.

(** X12.  With exact arithmetic the blocks repeat one another: for
    i, j < 3, [Hpp(i,j)] is [Hcc(i,j)], [Hpc(i,j)] is [- Hcc(i,j)], and
    [Bp(i)] is [- JcTE(i)]. *)
Theorem blocks_repeat (nd : Node D) (pt : Point) (p p' : Proj D) (i j : nat) :
  setJacobians nd pt p = Some p' -> (i < 3)%nat -> (j < 3)%nat ->
  coeff (Hpp p') i j = coeff (Hcc p') i j /\
  coeff (Hpc p') i j = - coeff (Hcc p') i j /\
  (Bp p').[i] = - (JcTE p').[i].
Proof.
  intros H Hi Hj. apply setJacobians_Some in H. cbv zeta in H. subst p'.
  cbn [Hpp Hcc Hpc Bp JcTE with_blocks].
  rewrite !coeff_transpose_mul by lia.
  rewrite !at_transpose_mulv by lia.
  rewrite !jac_cols_opp by assumption.
  rewrite !dot_vopp_l, !dot_vopp_r.
  repeat split; ring.
Qed.
End Exact.
End Blocks.

(** ** sba_node.cpp: the index maps *)

Section MapsMore.
Context {D : Type} {A : Arith D}.
Import Eigen Sba SbaNode.
Variable mkNode : list D -> list D -> CamParams D -> bool -> Node D.

Lemma to_int_small (z : Z) : 0 <= z < 2 ^ 31 -> to_int z = z.
Proof.
  intros Hz. unfold to_int. rewrite Z.mod_small by lia.
  destruct (Z.ltb_spec z (2 ^ 31)); lia.
Qed.

Lemma to_unsigned_range (z : Z) : 0 <= z -> 0 <= to_unsigned z <= z.
Proof.
  intros Hz. unfold to_unsigned. split.
  - apply Z.mod_pos_bound. lia.
  - apply Z.mod_le; lia.
Qed.

Lemma addNode_eq (n : SBANode D) (msg : CameraNode D) :
  addNode mkNode n msg =
  {| sba := {| nodes := nodes (sba n) ++
                 [mkNode [translation_x msg; translation_y msg; translation_z msg; d1]
                         [rotation_x msg; rotation_y msg; rotation_z msg; rotation_w msg]
                         {| cp_fx := fx msg; cp_fy := fy msg; cp_cx := cx msg;
                            cp_cy := cy msg; cp_tx := cn_baseline msg |}
                         (fixed msg)];
               tracks := tracks (sba n) |};
     point_indices := point_indices n;
     node_indices := <[to_unsigned (cn_index msg) :=
                         to_unsigned (Z.of_nat (length (nodes (sba n))))]> (node_indices n);
     rosout := rosout n |}.
Proof. reflexivity. Qed.

Lemma addPoint_eq (n : SBANode D) (msg : WorldPoint D) :
  addPoint n msg =
  {| sba := {| nodes := nodes (sba n);
               tracks := tracks (sba n) ++
                 [{| point := [wp_x msg; wp_y msg; wp_z msg; wp_w msg];
                     projections := [] |}] |};
     point_indices := <[to_unsigned (wp_index msg) :=
                          to_unsigned (Z.of_nat (length (tracks (sba n))))]> (point_indices n);
     node_indices := node_indices n;
     rosout := rosout n |}.
Proof. reflexivity. Qed.

(** X13.  [addNode] appends one node and maps the message's index to its
    position: looking the index up gives the position, the node at that
    position is the one built from the message, and every other key,
    every node already there, the point map, the tracks and the log are
    as before.  It does so whether or not the index was mapped already. *)
Theorem addNode_lookup (n : SBANode D) (msg : CameraNode D) :
  Z.of_nat (length (nodes (sba n))) < 2 ^ 32 ->
  let n' := addNode mkNode n msg in
  let key := to_unsigned (cn_index msg) in
  let i := length (nodes (sba n)) in
  node_indices n' !! key = Some (Z.of_nat i) /\
  nodes (sba n') !! i =
    Some (mkNode [translation_x msg; translation_y msg; translation_z msg; d1]
                 [rotation_x msg; rotation_y msg; rotation_z msg; rotation_w msg]
                 {| cp_fx := fx msg; cp_fy := fy msg; cp_cx := cx msg;
                    cp_cy := cy msg; cp_tx := cn_baseline msg |}
                 (fixed msg)) /\
  length (nodes (sba n')) = S i /\
  (forall k, k <> key -> node_indices n' !! k = node_indices n !! k) /\
  (forall j nd, nodes (sba n) !! j = Some nd -> nodes (sba n') !! j = Some nd) /\
  point_indices n' = point_indices n /\
  tracks (sba n') = tracks (sba n) /\
  rosout n' = rosout n.
Proof.
  intros Hlen. cbv zeta. rewrite addNode_eq.
  cbn [node_indices sba nodes tracks point_indices rosout].
  repeat split.
  - rewrite lookup_insert_eq. f_equal. unfold to_unsigned.
    apply Z.mod_small. lia.
  - now apply list_lookup_middle.
  - rewrite length_app. cbn. lia.
  - intros k Hk. now apply lookup_insert_ne.
  - intros j nd. apply lookup_app_l_Some.
Qed.

(** X14.  [addPoint] appends one track, holding the point of the message
    and no projection, and maps the message's index to its position;
    everything else is as before. *)
Theorem addPoint_lookup (n : SBANode D) (msg : WorldPoint D) :
  Z.of_nat (length (tracks (sba n))) < 2 ^ 32 ->
  let n' := addPoint n msg in
  let key := to_unsigned (wp_index msg) in
  let i := length (tracks (sba n)) in
  point_indices n' !! key = Some (Z.of_nat i) /\
  tracks (sba n') !! i =
    Some {| point := [wp_x msg; wp_y msg; wp_z msg; wp_w msg];
            projections := [] |} /\
  length (tracks (sba n')) = S i /\
  (forall k, k <> key -> point_indices n' !! k = point_indices n !! k) /\
  (forall j t, tracks (sba n) !! j = Some t -> tracks (sba n') !! j = Some t) /\
  node_indices n' = node_indices n /\
  nodes (sba n') = nodes (sba n) /\
  rosout n' = rosout n.
Proof.
  intros Hlen. cbv zeta. rewrite addPoint_eq.
  cbn [node_indices sba nodes tracks point_indices rosout].
  repeat split.
  - rewrite lookup_insert_eq. f_equal. unfold to_unsigned.
    apply Z.mod_small. lia.
  - now apply list_lookup_middle.
  - rewrite length_app. cbn. lia.
  - intros k Hk. now apply lookup_insert_ne.
  - intros j t. apply lookup_app_l_Some.
Qed.

(** *** The invariant of the maps *)

Lemma indices_ok_init : indices_ok (@init D).
Proof. split; intros k v H; cbn in H; rewrite lookup_empty in H; discriminate. Qed.

Lemma insert_below (m : gmap Z Z) (key x b b' : Z) :
  0 <= x < b' -> b <= b' ->
  (forall k v, m !! k = Some v -> 0 <= v < b) ->
  forall k v, <[key := x]> m !! k = Some v -> 0 <= v < b'.
Proof.
  intros Hx Hb Hm k v. destruct (decide (key = k)) as [-> | Hne].
  - rewrite lookup_insert_eq. intros [= <-]. exact Hx.
  - rewrite lookup_insert_ne by assumption. intros H.
    specialize (Hm k v H). lia.
Qed.

Lemma indices_ok_addNode (n : SBANode D) (msg : CameraNode D) :
  indices_ok n -> indices_ok (addNode mkNode n msg).
Proof.
  intros [Hn Hp]. rewrite addNode_eq. split; cbn [node_indices point_indices sba nodes tracks].
  - rewrite length_app. cbn [length].
    pose proof (to_unsigned_range (Z.of_nat (length (nodes (sba n))))).
    eapply insert_below; [| | exact Hn]; lia.
  - exact Hp.
Qed.

Lemma indices_ok_addPoint (n : SBANode D) (msg : WorldPoint D) :
  indices_ok n -> indices_ok (addPoint n msg).
Proof.
  intros [Hn Hp]. rewrite addPoint_eq. split; cbn [node_indices point_indices sba nodes tracks].
  - exact Hn.
  - rewrite length_app. cbn [length].
    pose proof (to_unsigned_range (Z.of_nat (length (tracks (sba n))))).
    eapply insert_below; [| | exact Hp]; lia.
Qed.

Lemma subscript_below (m : gmap Z Z) (key b : Z) :
  1 <= b ->
  (forall k v, m !! k = Some v -> 0 <= v < b) ->
  0 <= (subscript m key).1 < b /\
  (forall k v, (subscript m key).2 !! k = Some v -> 0 <= v < b).
Proof.
  intros Hb Hm. unfold subscript. destruct (m !! key) as [x |] eqn:E; cbn.
  - split; [now apply (Hm key) | exact Hm].
  - split; [lia |]. eapply insert_below; [| | exact Hm]; lia.
Qed.

(** The result of [addProj], field by field. *)
Lemma addProj_fields (n : SBANode D) (msg : Projection D) :
  let ci := to_int (subscript (node_indices n) (to_unsigned (camindex msg))).1 in
  let pi := to_int (subscript (point_indices n) (to_unsigned (pointindex msg))).1 in
  let Psize := to_int (Z.of_nat (length (tracks (sba n)))) in
  let Csize := to_int (Z.of_nat (length (nodes (sba n)))) in
  node_indices (addProj n msg) =
    (subscript (node_indices n) (to_unsigned (camindex msg))).2 /\
  point_indices (addProj n msg) =
    (subscript (point_indices n) (to_unsigned (pointindex msg))).2 /\
  sba (addProj n msg) =
    (if (pi <? Psize) && (ci <? Csize)
     then SysSBA_addProj (sba n) ci pi [u msg; v msg; d msg] (pr_stereo msg)
     else sba n) /\
  rosout (addProj n msg) =
    (if (pi <? Psize) && (ci <? Csize) then rosout n
     else rosout n ++ [Failed_to_add_projection ci pi Csize Psize]).
Proof.
  cbv zeta. unfold addProj.
  destruct (subscript (node_indices n) _) as [r1 m1].
  destruct (subscript (point_indices n) _) as [r2 m2]. cbn [fst snd].
  destruct (_ && _); repeat split.
Qed.

Lemma addProj_lengths (n : SBANode D) (msg : Projection D) :
  length (nodes (sba (addProj n msg))) = length (nodes (sba n)) /\
  length (tracks (sba (addProj n msg))) = length (tracks (sba n)).
Proof.
  destruct (addProj_fields n msg) as (_ & _ & -> & _).
  destruct (_ && _); [apply SysSBA_addProj_sizes | auto].
Qed.

Lemma indices_ok_addProj (n : SBANode D) (msg : Projection D) :
  indices_ok n -> indices_ok (addProj n msg).
Proof.
  intros [Hn Hp]. destruct (addProj_lengths n msg) as [Ln Lt].
  destruct (addProj_fields n msg) as (En & Ep & _ & _).
  split; intros k v; rewrite ?En, ?Ep, ?Ln, ?Lt.
  - apply (subscript_below (node_indices n) (to_unsigned (camindex msg))
             (Z.max 1 (Z.of_nat (length (nodes (sba n)))))); [lia | exact Hn].
  - apply (subscript_below (point_indices n) (to_unsigned (pointindex msg))
             (Z.max 1 (Z.of_nat (length (tracks (sba n)))))); [lia | exact Hp].
Qed.

Lemma fold_left_keeps {X S : Type} (P : S -> Prop) (f : S -> X -> S) (l : list X) :
  (forall s x, P s -> P (f s x)) -> forall s, P s -> P (fold_left f l s).
Proof. intros Hf. induction l as [| x l IH]; cbn; auto. Qed.

Lemma indices_ok_addFrame (n : SBANode D) (msg : Frame D) :
  indices_ok n -> indices_ok (addFrame mkNode n msg).
Proof.
  intros H. unfold addFrame.
  apply fold_left_keeps; [intros; now apply indices_ok_addProj |].
  apply fold_left_keeps; [intros; now apply indices_ok_addPoint |].
  apply fold_left_keeps; [intros; now apply indices_ok_addNode |].
  exact H.
Qed.

(** X15.  Whatever frames a fresh node has processed, every internal
    index its two maps hold is 0 or below the number of nodes,
    respectively of tracks, of the graph. *)
Theorem indices_ok_always (frames : list (Frame D)) :
  indices_ok (fold_left (addFrame mkNode) frames init).
Proof.
  apply fold_left_keeps; [intros; now apply indices_ok_addFrame |].
  apply indices_ok_init.
Qed.
End MapsMore.

(** ** sba_node.cpp: which projections are rejected *)

Section Rejection.
Context {D : Type} {A : Arith D}.
Import Eigen Sba SbaNode.
Variable mkNode : list D -> list D -> CamParams D -> bool -> Node D.

Lemma list_sum_alter {X : Type} (g : X -> nat) (f : X -> X) (ts : list X) (i : nat) :
  (forall t, g (f t) = S (g t)) -> (i < length ts)%nat ->
  list_sum (map g (alter f i ts)) = S (list_sum (map g ts)).
Proof.
  intros Hg. revert i. induction ts as [| t ts IH]; intros i Hi; simpl in Hi; [lia |].
  destruct i as [| i]; simpl.
  - rewrite Hg. lia.
  - change (list_alter f i ts) with (alter f i ts).
    rewrite (IH i) by lia. lia.
Qed.

Lemma nprojs_alter_attach (pr : Proj D) (nds : list (Node D))
    (ts : list (Track D)) (i : nat) :
  (i < length ts)%nat ->
  nprojs {| nodes := nds; tracks := alter (attach pr) i ts |} =
  S (nprojs {| nodes := nds; tracks := ts |}).
Proof.
  intros Hi. unfold nprojs. cbn [tracks]. apply list_sum_alter; [| exact Hi].
  intros t. cbn. rewrite length_app. cbn. lia.
Qed.

Lemma nonempty_length {X : Type} (l : list X) : l <> [] -> (0 < length l)%nat.
Proof. destruct l; [congruence | cbn; lia]. Qed.

(** With the invariant, a graph that holds a node and a track accepts
    every projection message. *)
Lemma addProj_accepts (n : SBANode D) (msg : Projection D) :
  indices_ok n ->
  Z.of_nat (length (nodes (sba n))) < 2 ^ 31 ->
  Z.of_nat (length (tracks (sba n))) < 2 ^ 31 ->
  nodes (sba n) <> [] -> tracks (sba n) <> [] ->
  rosout (addProj n msg) = rosout n /\
  nprojs (sba (addProj n msg)) = S (nprojs (sba n)).
Proof.
  intros [Hn Hp] Ln Lt Nn Nt.
  apply nonempty_length in Nn. apply nonempty_length in Nt.
  destruct (addProj_fields n msg) as (_ & _ & Es & Er). cbv zeta in Es, Er.
  destruct (subscript_below (node_indices n) (to_unsigned (camindex msg))
              (Z.max 1 (Z.of_nat (length (nodes (sba n))))) ltac:(lia) Hn) as [Hc _].
  destruct (subscript_below (point_indices n) (to_unsigned (pointindex msg))
              (Z.max 1 (Z.of_nat (length (tracks (sba n))))) ltac:(lia) Hp) as [Hq _].
  set (ci := (subscript (node_indices n) (to_unsigned (camindex msg))).1) in *.
  set (pi := (subscript (point_indices n) (to_unsigned (pointindex msg))).1) in *.
  rewrite (to_int_small ci), (to_int_small pi),
    !(to_int_small (Z.of_nat _)) in Es, Er by lia.
  assert (H1 : (pi <? Z.of_nat (length (tracks (sba n)))) = true)
    by (apply Z.ltb_lt; lia).
  assert (H2 : (ci <? Z.of_nat (length (nodes (sba n)))) = true)
    by (apply Z.ltb_lt; lia).
  rewrite H1, H2 in Es, Er. cbn [andb] in Es, Er.
  split; [exact Er |]. rewrite Es. unfold SysSBA_addProj.
  assert (H3 : (0 <=? ci) = true) by (apply Z.leb_le; lia).
  assert (H4 : (0 <=? pi) = true) by (apply Z.leb_le; lia).
  rewrite H1, H2, H3, H4. cbn [andb].
  destruct (sba n) as [nds ts]. cbn [nodes tracks] in *.
  apply nprojs_alter_attach. lia.
Qed.

(** With the invariant, a graph without a node or without a track
    rejects every projection message. *)
Lemma addProj_rejects (n : SBANode D) (msg : Projection D) :
  indices_ok n ->
  nodes (sba n) = [] \/ tracks (sba n) = [] ->
  sba (addProj n msg) = sba n /\
  exists C P Csize Psize,
    rosout (addProj n msg) = rosout n ++ [Failed_to_add_projection C P Csize Psize].
Proof.
  intros [Hn Hp] Hempty.
  destruct (addProj_fields n msg) as (_ & _ & Es & Er). cbv zeta in Es, Er.
  assert (Hcond : (to_int (subscript (point_indices n) (to_unsigned (pointindex msg))).1 <?
                   to_int (Z.of_nat (length (tracks (sba n))))) &&
                  (to_int (subscript (node_indices n) (to_unsigned (camindex msg))).1 <?
                   to_int (Z.of_nat (length (nodes (sba n))))) = false).
  { destruct Hempty as [E | E]; rewrite E in *; cbn [length] in *.
    - destruct (subscript_below (node_indices n) (to_unsigned (camindex msg))
                  1 ltac:(lia) Hn) as [Hc _].
      replace ((subscript (node_indices n) (to_unsigned (camindex msg))).1)
        with 0 by lia.
      apply andb_false_r.
    - destruct (subscript_below (point_indices n) (to_unsigned (pointindex msg))
                  1 ltac:(lia) Hp) as [Hq _].
      replace ((subscript (point_indices n) (to_unsigned (pointindex msg))).1)
        with 0 by lia.
      reflexivity. }
  rewrite Hcond in Es, Er. split; [exact Es |]. eauto.
Qed.

(** X16.  For a node whose maps satisfy the invariant (as they do after
    any frames), the check of [addProj] separates graphs, not messages:
    when the graph holds at least one node and one track the message is
    accepted, nothing is logged and the graph holds one projection more;
    when it holds no node or no track the message is rejected, the graph
    is unchanged and one failure line is logged.  The ids the message
    names play no part. *)
Theorem addProj_rejects_only_when_empty (n : SBANode D) (msg : Projection D) :
  indices_ok n ->
  Z.of_nat (length (nodes (sba n))) < 2 ^ 31 ->
  Z.of_nat (length (tracks (sba n))) < 2 ^ 31 ->
  (nodes (sba n) <> [] -> tracks (sba n) <> [] ->
   rosout (addProj n msg) = rosout n /\
   nprojs (sba (addProj n msg)) = S (nprojs (sba n))) /\
  (nodes (sba n) = [] \/ tracks (sba n) = [] ->
   sba (addProj n msg) = sba n /\
   exists C P Csize Psize,
     rosout (addProj n msg) = rosout n ++ [Failed_to_add_projection C P Csize Psize]).
Proof.
  intros Hok Ln Lt. split.
  - intros. now apply addProj_accepts.
  - intros. now apply addProj_rejects.
Qed.

(** *** A whole frame *)

Lemma fold_addNode (l : list (CameraNode D)) (n : SBANode D) :
  let n1 := fold_left (addNode mkNode) l n in
  length (nodes (sba n1)) = (length (nodes (sba n)) + length l)%nat /\
  tracks (sba n1) = tracks (sba n) /\ rosout n1 = rosout n /\
  (indices_ok n -> indices_ok n1).
Proof.
  cbv zeta. revert n. induction l as [| x l IH]; intros n; cbn [fold_left].
  - split; [cbn; lia |]. auto.
  - destruct (IH (addNode mkNode n x)) as (H1 & H2 & H3 & H4).
    rewrite H1, H2, H3, addNode_eq. cbn [sba nodes tracks rosout].
    rewrite length_app. cbn [length].
    split; [lia |]. split; [reflexivity |]. split; [reflexivity |].
    intros Hok. apply H4. now apply indices_ok_addNode.
Qed.

Lemma nprojs_tracks (s s' : SysSBA D) : tracks s = tracks s' -> nprojs s = nprojs s'.
Proof. unfold nprojs. now intros ->. Qed.

Lemma fold_addPoint (l : list (WorldPoint D)) (n : SBANode D) :
  let n1 := fold_left addPoint l n in
  length (tracks (sba n1)) = (length (tracks (sba n)) + length l)%nat /\
  nodes (sba n1) = nodes (sba n) /\ rosout n1 = rosout n /\
  nprojs (sba n1) = nprojs (sba n) /\
  (indices_ok n -> indices_ok n1).
Proof.
  cbv zeta. revert n. induction l as [| x l IH]; intros n; cbn [fold_left].
  - split; [cbn; lia |]. auto.
  - destruct (IH (addPoint n x)) as (H1 & H2 & H3 & H4 & H5).
    rewrite H1, H2, H3, H4, addPoint_eq. cbn [sba nodes tracks rosout].
    rewrite length_app. cbn [length].
    split; [lia |]. split; [reflexivity |]. split; [reflexivity |]. split.
    + unfold nprojs. cbn [tracks]. rewrite map_app, list_sum_app. cbn. lia.
    + intros Hok. apply H5. now apply indices_ok_addPoint.
Qed.

Lemma fold_addProj (l : list (Projection D)) (n : SBANode D) :
  indices_ok n ->
  Z.of_nat (length (nodes (sba n))) < 2 ^ 31 ->
  Z.of_nat (length (tracks (sba n))) < 2 ^ 31 ->
  nodes (sba n) <> [] -> tracks (sba n) <> [] ->
  let n1 := fold_left addProj l n in
  length (nodes (sba n1)) = length (nodes (sba n)) /\
  length (tracks (sba n1)) = length (tracks (sba n)) /\
  rosout n1 = rosout n /\
  nprojs (sba n1) = (nprojs (sba n) + length l)%nat.
Proof.
  cbv zeta. revert n. induction l as [| x l IH]; intros n Hok Ln Lt Nn Nt;
    cbn [fold_left].
  - cbn. repeat split; lia.
  - destruct (addProj_lengths n x) as [E1 E2].
    destruct (addProj_accepts n x Hok Ln Lt Nn Nt) as [E3 E4].
    destruct (IH (addProj n x)) as (H1 & H2 & H3 & H4).
    + now apply indices_ok_addProj.
    + now rewrite E1.
    + now rewrite E2.
    + intros E. apply (f_equal (@length _)) in E. rewrite E1 in E.
      apply nonempty_length in Nn. cbn in E. lia.
    + intros E. apply (f_equal (@length _)) in E. rewrite E2 in E.
      apply nonempty_length in Nt. cbn in E. lia.
    + rewrite H1, H2, H3, H4, E1, E2, E3, E4. cbn [length].
      repeat split; lia.
Qed.

(** X17.  [addFrame] on a node whose maps satisfy the invariant: if,
    counting the frame's own, there is at least one node and one point,
    then no projection of the frame is rejected, whatever ids it names:
    nothing is logged, every projection of the frame is attached to a
    track, and the graph has grown by the frame's nodes and points. *)
Theorem addFrame_accepts_all (n : SBANode D) (msg : Frame D) :
  indices_ok n ->
  let N := (length (nodes (sba n)) + length (fr_nodes msg))%nat in
  let T := (length (tracks (sba n)) + length (fr_points msg))%nat in
  (0 < N)%nat -> (0 < T)%nat -> Z.of_nat N < 2 ^ 31 -> Z.of_nat T < 2 ^ 31 ->
  let n' := addFrame mkNode n msg in
  rosout n' = rosout n /\
  length (nodes (sba n')) = N /\
  length (tracks (sba n')) = T /\
  nprojs (sba n') = (nprojs (sba n) + length (fr_projections msg))%nat.
Proof.
  intros Hok N T HN HT LN LT. cbv zeta. unfold addFrame.
  destruct (fold_addNode (fr_nodes msg) n) as (A1 & A2 & A3 & A4).
  cbv zeta in *.
  set (n1 := fold_left (addNode mkNode) (fr_nodes msg) n) in *.
  destruct (fold_addPoint (fr_points msg) n1) as (B1 & B2 & B3 & B4 & B5).
  cbv zeta in *.
  set (n2 := fold_left addPoint (fr_points msg) n1) in *.
  assert (C1 : length (nodes (sba n2)) = N) by (rewrite B2; exact A1).
  assert (C2 : length (tracks (sba n2)) = T) by (rewrite B1, A2; reflexivity).
  destruct (fold_addProj (fr_projections msg) n2) as (P1 & P2 & P3 & P4).
  - auto.
  - rewrite C1. exact LN.
  - rewrite C2. exact LT.
  - intros E. rewrite E in C1. cbn in C1. lia.
  - intros E. rewrite E in C2. cbn in C2. lia.
  - cbv zeta in *. rewrite P1, P2, P3, P4, C1, C2, B3, A3, B4.
    rewrite (nprojs_tracks (sba n1) (sba n) A2). repeat split.
Qed.

(** X18.  A projection message whose camera id and point id are both
    mapped, to a node and a track of the graph, leaves the two maps and
    the log as they are and attaches the observation, for the mapped
    node, to the mapped track; the nodes are as before. *)
Theorem addProj_known_ids (n : SBANode D) (msg : Projection D) (ci pi : Z) :
  node_indices n !! to_unsigned (camindex msg) = Some ci ->
  point_indices n !! to_unsigned (pointindex msg) = Some pi ->
  0 <= ci < Z.of_nat (length (nodes (sba n))) ->
  0 <= pi < Z.of_nat (length (tracks (sba n))) ->
  Z.of_nat (length (nodes (sba n))) < 2 ^ 31 ->
  Z.of_nat (length (tracks (sba n))) < 2 ^ 31 ->
  let n' := addProj n msg in
  node_indices n' = node_indices n /\
  point_indices n' = point_indices n /\
  rosout n' = rosout n /\
  nodes (sba n') = nodes (sba n) /\
  tracks (sba n') =
    alter (attach (Proj_ ci [u msg; v msg; d msg] (pr_stereo msg)))
          (Z.to_nat pi) (tracks (sba n)).
Proof.
  intros Hc Hp Hci Hpi Ln Lt. cbv zeta.
  destruct (addProj_fields n msg) as (En & Ep & Es & Er). cbv zeta in Es, Er.
  assert (S1 : subscript (node_indices n) (to_unsigned (camindex msg)) =
               (ci, node_indices n)) by (unfold subscript; now rewrite Hc).
  assert (S2 : subscript (point_indices n) (to_unsigned (pointindex msg)) =
               (pi, point_indices n)) by (unfold subscript; now rewrite Hp).
  rewrite S1 in En, Es, Er. rewrite S2 in Ep, Es, Er. cbn [fst snd] in *.
  rewrite (to_int_small ci), (to_int_small pi),
    !(to_int_small (Z.of_nat _)) in Es, Er by lia.
  assert (H1 : (pi <? Z.of_nat (length (tracks (sba n)))) = true)
    by (apply Z.ltb_lt; lia).
  assert (H2 : (ci <? Z.of_nat (length (nodes (sba n)))) = true)
    by (apply Z.ltb_lt; lia).
  assert (H3 : (0 <=? ci) = true) by (apply Z.leb_le; lia).
  assert (H4 : (0 <=? pi) = true) by (apply Z.leb_le; lia).
  rewrite H1, H2 in Es, Er. cbn [andb] in Es, Er.
  unfold SysSBA_addProj in Es. rewrite H1, H2, H3, H4 in Es. cbn [andb] in Es.
  rewrite En, Ep, Er, Es. repeat split.
Qed.
End Rejection.

(** ** sba_node.cpp: the timer callback *)

Section Timer.
Context {D : Type} {A : Arith D}.
Import Sba SbaNode SbaTimer.
Variable calcRMSCost : SysSBA D -> SysSBA D * D.
Variable disinf : D -> bool.

Lemma iter_add_mod (k : nat) (t : Z) :
  Nat.iter k (fun projs => to_unsigned (projs + t)) 0 =
  (Z.of_nat k * t) mod 2 ^ 32.
Proof.
  induction k as [| k IH].
  - reflexivity.
  - rewrite Nat.iter_succ, IH. unfold to_unsigned.
    rewrite Z.add_mod_idemp_l by lia. f_equal. lia.
Qed.

Lemma count_projs_square (t : Z) :
  0 <= t < 2 ^ 31 -> count_projs t = (t * t) mod 2 ^ 32.
Proof.
  intros Ht. unfold count_projs. rewrite iter_add_mod.
  rewrite (to_int_small t Ht). now rewrite Z2Nat.id by lia.
Qed.

(** X19.  The line "SBA Nodes: .., Points: .., Projections: .." that
    [doSBA] logs gives, as the number of projections, the square of the
    number of points (reduced to 32 bits): the loop adds
    [sba.tracks.size()] once per track.  The projections the tracks hold
    are never counted. *)
Theorem doSBA_projections_figure (n : SBANode D) (cam_subs point_subs : Z) :
  let n' := fst (doSBA calcRMSCost disinf n cam_subs point_subs) in
  let out := snd (doSBA calcRMSCost disinf n cam_subs point_subs) in
  let T := Z.of_nat (length (tracks (sba n'))) in
  T < 2 ^ 31 ->
  exists Nodes,
    In (SBA_counts Nodes T (to_int ((T * T) mod 2 ^ 32))) out /\
    forall a b c, In (SBA_counts a b c) out ->
      c = to_int ((T * T) mod 2 ^ 32).
Proof.
  cbv zeta. unfold doSBA.
  destruct (if 0 <? Z.of_nat (length (nodes (sba n)))
            then let '(sba', cost) := calcRMSCost (sba n) in
                 (sba', if disnan cost || disinf cost then [NaN_cost] else [])
            else (sba n, [])) as [sba1 out1] eqn:E.
  cbn [fst snd sba]. intros HT.
  rewrite (to_int_small (Z.of_nat (length (tracks sba1)))) by lia.
  rewrite count_projs_square by lia.
  assert (Hout1 : forall a b c, ~ In (SBA_counts a b c) out1).
  { intros a b c. destruct (0 <? _).
    - destruct (calcRMSCost (sba n)) as [s' cost]. inversion E; subst.
      destruct (_ || _); cbn; intuition discriminate.
    - inversion E; subst. cbn. tauto. }
  eexists. split.
  - apply in_or_app. right. left. reflexivity.
  - intros a b c Hin. apply in_app_or in Hin. destruct Hin as [Hin | Hin].
    + now apply Hout1 in Hin.
    + cbn in Hin. destruct Hin as [Hin | Hin]; [now inversion Hin |].
      destruct (_ || _); cbn in Hin; intuition discriminate.
Qed.
End Timer.

(** ** frame_disparity.cpp: what [publishFrame] reads and publishes *)

Section IngestionMore.
Context {D : Type} {A : Arith D}.
Context {Header CameraInfo : Type}.
Variable info_header : CameraInfo -> Header.
Import FrameDisparity.
Local Open Scope D_scope.

(** X20.  Every keypoint [publishFrame] publishes has [d > 0], given
    only that [10 > 0]: a disparity that is zero, negative or NaN never
    reaches the message. *)
Theorem publishFrame_d_positive (H10 : (d0 <? d10) = true)
    (kpts : list (@KeyPoint D)) (dtors disp_image : @Mat D)
    (l r : CameraInfo) (i : nat) (m : Keypoint) :
  keypoints (publishFrame info_header kpts dtors disp_image l r) !! i = Some m ->
  (d0 <? kd m) = true.
Proof.
  rewrite publishFrame_keypoint. intros H.
  destruct (kpts !! i) as [k |]; [| discriminate].
  cbn in H. inversion H; subst m. clear H. unfold keypoint_msg.
  destruct (d0 <? lookup_disp disp_image k) eqn:E;
    cbn [kd set_goodPt set_d]; assumption.
Qed.

(** X21.  Line 244 reads along the diagonal of the image: for a keypoint
    whose y-coordinate, as an [int], is a row of the image, and an image
    at least as wide as it is high, the value looked up is element
    y * (cols + 1) of the pixel buffer, which exists. *)
Theorem lookup_disp_on_diagonal (disp_image : @Mat D) (k : @KeyPoint D) :
  let y := dtoint (pt_y k) in
  (0 <= y < rows disp_image)%Z ->
  (rows disp_image <= cols disp_image)%Z ->
  length (data disp_image) = Z.to_nat (rows disp_image * cols disp_image) ->
  data disp_image !! Z.to_nat (y * (cols disp_image + 1)) =
    Some (lookup_disp disp_image k).
Proof.
  cbv zeta. intros Hy Hrc Hlen. unfold lookup_disp, at_.
  set (y := dtoint (pt_y k)) in *.
  replace (y * cols disp_image + y)%Z with (y * (cols disp_image + 1))%Z by lia.
  destruct (Z.ltb_spec (y * (cols disp_image + 1)) 0) as [Hneg | _]; [nia |].
  rewrite nth_lookup.
  destruct (lookup_lt_is_Some_2 (data disp_image)
              (Z.to_nat (y * (cols disp_image + 1)))) as [x Hx].
  - rewrite Hlen. apply Z2Nat.inj_lt; nia.
  - now rewrite Hx.
Qed.
End IngestionMore.

(** ** frame_disparity.cpp: configuration and subscriptions *)

Section NodeletFacts.
Import Nodelet.
Context {Ratio : Type}.

Lemma lor_1 (x : Z) : Z.lor x 1 = if Z.odd x then x else x + 1.
Proof.
  destruct x as [| p | p]; [reflexivity | destruct p; reflexivity |].
  destruct p as [p | p |]; try reflexivity; destruct p; reflexivity.
Qed.

Lemma lor_1_odd (x : Z) : Z.odd (Z.lor x 1) = true.
Proof.
  rewrite lor_1. destruct (Z.odd x) eqn:E; [exact E |].
  rewrite Z.odd_add, E. reflexivity.
Qed.

Lemma lor_1_bounds (x : Z) : x <= Z.lor x 1 <= x + 1.
Proof. rewrite lor_1. destruct (Z.odd x); lia. Qed.

Lemma round16 (r : Z) :
  let r' := Z.quot r 16 * 16 in
  r' mod 16 = 0 /\ Z.abs r' <= Z.abs r /\ Z.abs (r - r') < 16 /\
  (0 <= r -> 0 <= r') /\ (r <= 0 -> r' <= 0).
Proof.
  cbv zeta. pose proof (Z.quot_rem' r 16) as E.
  split; [apply Z.mod_mul; lia |].
  destruct (Z.le_ge_cases 0 r) as [Hr | Hr].
  - pose proof (Z.rem_bound_pos r 16 Hr ltac:(lia)). lia.
  - pose proof (Z.rem_bound_pos (- r) 16 ltac:(lia) ltac:(lia)) as Hb.
    rewrite Z.rem_opp_l in Hb by lia. lia.
Qed.

(** X22.  [configCb] leaves in the [Config] it was given, and passes to
    the block matcher, a prefilter size and a correlation window size
    that are odd (the value given, or the next one), and a disparity
    range that is a multiple of 16 (the value given rounded toward zero,
    so less than 16 away and of the same sign); these stay [int]s, and
    the other seven settings are passed on as given. *)
Theorem configCb_valid (c : @Config Ratio) :
  is_int (prefilter_size c) -> is_int (correlation_window_size c) ->
  is_int (disparity_range c) ->
  let c' := fst (configCb c) in
  (Z.odd (prefilter_size c') = true /\
   prefilter_size c <= prefilter_size c' <= prefilter_size c + 1 /\
   is_int (prefilter_size c')) /\
  (Z.odd (correlation_window_size c') = true /\
   correlation_window_size c <= correlation_window_size c'
     <= correlation_window_size c + 1 /\
   is_int (correlation_window_size c')) /\
  (disparity_range c' mod 16 = 0 /\
   Z.abs (disparity_range c') <= Z.abs (disparity_range c) /\
   Z.abs (disparity_range c - disparity_range c') < 16 /\
   is_int (disparity_range c')) /\
  (prefilter_cap c' = prefilter_cap c /\ min_disparity c' = min_disparity c /\
   uniqueness_ratio c' = uniqueness_ratio c /\
   texture_threshold c' = texture_threshold c /\
   speckle_size c' = speckle_size c /\ speckle_range c' = speckle_range c /\
   use_gpu c' = use_gpu c) /\
  snd (configCb c) =
    [ setPreFilterSize (prefilter_size c');
      setPreFilterCap (prefilter_cap c);
      setCorrelationWindowSize (correlation_window_size c');
      setMinDisparity (min_disparity c);
      setDisparityRange (disparity_range c');
      setUniquenessRatio (uniqueness_ratio c);
      setTextureThreshold (texture_threshold c);
      setSpeckleSize (speckle_size c);
      setSpeckleRange (speckle_range c);
      set_use_gpu (use_gpu c) ].
Proof.
  unfold is_int. intros H1 H2 H3. cbv zeta.
  cbn [configCb fst snd tweak prefilter_size correlation_window_size
       disparity_range prefilter_cap min_disparity uniqueness_ratio
       texture_threshold speckle_size speckle_range use_gpu].
  pose proof (lor_1_bounds (prefilter_size c)) as B1.
  pose proof (lor_1_bounds (correlation_window_size c)) as B2.
  pose proof (lor_1_odd (prefilter_size c)) as O1.
  pose proof (lor_1_odd (correlation_window_size c)) as O2.
  destruct (round16 (disparity_range c)) as (R1 & R2 & R3 & R4 & R5).
  assert (I1 : Z.lor (prefilter_size c) 1 < 2 ^ 31).
  { rewrite lor_1. destruct (Z.odd (prefilter_size c)) eqn:E; [lia |].
    assert (prefilter_size c <> 2 ^ 31 - 1) by (intros X; rewrite X in E; discriminate).
    lia. }
  assert (I2 : Z.lor (correlation_window_size c) 1 < 2 ^ 31).
  { rewrite lor_1. destruct (Z.odd (correlation_window_size c)) eqn:E; [lia |].
    assert (correlation_window_size c <> 2 ^ 31 - 1)
      by (intros X; rewrite X in E; discriminate).
    lia. }
  repeat split; try assumption; try lia.
Qed.

(** X23.  [configCb] is idempotent: given the [Config] it has left, it
    leaves it as it is and makes the same calls; and a [Config] whose two
    sizes are odd and whose disparity range is a multiple of 16 is left
    unchanged. *)
Theorem configCb_idempotent (c : @Config Ratio) :
  configCb (fst (configCb c)) = configCb c /\
  (Z.odd (prefilter_size c) = true ->
   Z.odd (correlation_window_size c) = true ->
   Z.rem (disparity_range c) 16 = 0 ->
   fst (configCb c) = c).
Proof.
  assert (L : forall x, Z.lor (Z.lor x 1) 1 = Z.lor x 1).
  { intros x. rewrite <- Z.lor_assoc. reflexivity. }
  assert (Q : forall r, Z.quot (Z.quot r 16 * 16) 16 * 16 = Z.quot r 16 * 16).
  { intros r. rewrite Z.quot_mul by lia. reflexivity. }
  split.
  - unfold configCb, tweak. cbn [fst prefilter_size correlation_window_size
      disparity_range prefilter_cap min_disparity uniqueness_ratio
      texture_threshold speckle_size speckle_range use_gpu].
    rewrite !L, !Q. reflexivity.
  - intros O1 O2 R. destruct c. cbn in *. unfold tweak. cbn.
    rewrite !lor_1, O1, O2.
    pose proof (Z.quot_rem' disparity_range0 16) as E. rewrite R in E.
    f_equal. lia.
Qed.

Lemma last_cons_default {X : Type} (l : list X) (x d : X) :
  List.last (x :: l) d = List.last l x.
Proof.
  revert x d. induction l as [| a l IH]; intros x d; [reflexivity |].
  change (List.last (x :: a :: l) d) with (List.last (a :: l) d).
  now rewrite (IH a d), (IH a x).
Qed.

(** X24.  Starting from [onInit], after any sequence of [connectCb]
    calls the four input subscriptions are all active or all inactive,
    and they are active exactly when, at the last call, one of the two
    publishers had a subscriber. *)
Theorem connectCb_follows_demand (calls : list (Z * Z)) :
  fold_left (fun s e => connectCb s e.1 e.2) calls onInit =
  all_subs (List.last (map (fun e => negb ((e.1 =? 0) && (e.2 =? 0))) calls) false).
Proof.
  unfold onInit. generalize false as b.
  induction calls as [| [nd nf] calls IH]; intros b; [reflexivity |].
  cbn [fold_left map fst snd].
  assert (Hstep : connectCb (all_subs b) nd nf =
                  all_subs (negb ((nd =? 0) && (nf =? 0)))).
  { unfold connectCb. destruct ((nd =? 0) && (nf =? 0)); [reflexivity |].
    destruct b; reflexivity. }
  rewrite Hstep, IH. now rewrite last_cons_default.
Qed.
End NodeletFacts.

(** ** proj.cpp: [getErrNorm] *)

Section Norm.
Import Eigen Sba SbaNorm.
Context {Q : Quotient1 spec_float}.
Local Open Scope D_scope.

Lemma sqrt_nn (x : spec_float) :
  B64More.nonneg_or_nan x = true ->
  B64More.nonneg_or_nan (SFsqrt B64.prec B64.emax x) = true.
Proof.
  destruct x as [s | s | | s m e]; cbn; try congruence;
    try (destruct s; cbn; congruence).
  destruct s; cbn; [discriminate |]. intros _.
  destruct (SFsqrt_core_binary _ _ _ _) as [[mz ez] lz].
  apply binary_round_aux_nn.
Qed.

(** X25.  On doubles [getErrNorm] is never negative (it is NaN or
    [>= 0]), and right after a [calcErr] that found the depth [<= 0] it
    is 0. *)
Theorem getErrNorm_never_negative {B : Build spec_float}
    (nd : Node spec_float) (pt : Point) (p : Proj spec_float) :
  (SFltb (getErrNorm p) d0 = false /\
   (getErrNorm p = S754_nan \/ SFleb d0 (getErrNorm p) = true)) /\
  ((depth nd pt <=? d0) = true ->
   getErrNorm (fst (calcErr nd pt p)) = d0).
Proof.
  split.
  - apply nn_not_negative. unfold getErrNorm.
    destruct (stereo p); apply sqrt_nn, squaredNorm_nn.
  - intros H. rewrite (calcErr_guard nd pt p H).
    unfold getErrNorm. cbn [fst with_err stereo err].
    destruct (stereo p); reflexivity.
Qed.
End Norm.

(** ** These properties at concrete inputs *)

Section RunsMore.
Import Eigen Sba Ex Ex2.
Local Open Scope D_scope.

Lemma fmul_comm (x y : spec_float) : x * y = y * x.
Proof.
  destruct x as [sx | sx | | sx mx ex], y as [sy | sy | | sy my ey]; cbn;
    try reflexivity; try (now rewrite xorb_comm).
  now rewrite xorb_comm, Pos.mul_comm, Z.add_comm.
Qed.

Lemma fsub_0_r (x : spec_float) : x - d0 = x.
Proof. destruct x as [[] | [] | | [] m e]; reflexivity. Qed.

Lemma calcErr_mono_residual_witness :
  let B := build_b64_q1 in
  (d0 <? depth (cam f) pt_thirds) = true /\
  (let e := err (fst (calcErr (Q := by_reciprocal)
                        (cam f) pt_thirds (obs f false))) in
   e.[0] = f 3460 * (d1 / f 3) - f 560 /\
   e.[1] = f 1220 * (d1 / f 3) - f 500) /\
  (let e := err (fst (calcErr (Q := by_division)
                        (cam f) pt_thirds (obs f false))) in
   e.[0] = f 3460 / f 3 - f 560 /\
   e.[1] = f 1220 / f 3 - f 500).
Proof.
  intros B. split; [vm_compute; reflexivity |]. split.
  - destruct (calcErr_mono_residual (Q := by_reciprocal) (L := binary64_laws)
                (cam f) pt_thirds (obs f false)) as (H0 & H1 & _).
    + reflexivity.
    + repeat split; reflexivity.
    + repeat split; reflexivity.
    + vm_compute. reflexivity.
    + cbv zeta. rewrite H0, H1. vm_compute. split; reflexivity.
  - destruct (calcErr_mono_residual (Q := by_division) (L := binary64_laws)
                (cam f) pt_thirds (obs f false)) as (H0 & H1 & _).
    + reflexivity.
    + repeat split; reflexivity.
    + repeat split; reflexivity.
    + vm_compute. reflexivity.
    + cbv zeta. rewrite H0, H1. vm_compute. split; reflexivity.
Defined.

(** At that point the two functors do not store the same residual: the
    second coefficients differ (in the last bit of the quotient). *)
Lemma calcErr_mono_depends_on_functor :
  let B := build_b64_q1 in
  let r := calcErr (Q := by_reciprocal) (cam f) pt_thirds (obs f false) in
  let d := calcErr (Q := by_division) (cam f) pt_thirds (obs f false) in
  (err (fst r)).[0] = (err (fst d)).[0] /\
  SFeqb (err (fst r)).[1] (err (fst d)).[1] = false.
Proof. vm_compute. split; reflexivity. Qed.

Lemma setJacobians_symmetric_witness :
  let B := build_b64 false in
  exists p', setJacobians (cam f) (pt_front f) (obs f true) = Some p' /\
             coeff (Hcc p') 0 5 = coeff (Hcc p') 5 0.
Proof.
  intros B.
  destruct (setJacobians (cam f) (pt_front f) (obs f true)) as [p' |] eqn:E;
    [| vm_compute in E; discriminate E].
  exists p'. split; [reflexivity |].
  apply (setJacobians_symmetric fmul_comm (cam f) (pt_front f) (obs f true) p' E); lia.
Defined.

Lemma setJacobians_stable_witness :
  let B := build_b64 false in
  exists p', setJacobians (cam f) (pt_front f) (obs f false) = Some p' /\
             setJacobians (cam f) (pt_front f) p' = Some p'.
Proof.
  intros B.
  destruct (setJacobians (cam f) (pt_front f) (obs f false)) as [p' |] eqn:E;
    [| vm_compute in E; discriminate E].
  exists p'. split; [reflexivity |].
  exact (proj2 (setJacobians_stable (cam f) (pt_front f) (obs f false) p' E)).
Defined.

Lemma stereo_zero_baseline_witness :
  let B := build_b64 false in
  coeff (jacc cam_no_baseline (pt_front f) (obs f true)) 2 3 =
  coeff (jacc cam_no_baseline (pt_front f) (obs f true)) 0 3.
Proof.
  intros B.
  exact (proj1 (stereo_zero_baseline fsub_0_r cam_no_baseline (pt_front f)
                  (obs f true) 3 eq_refl eq_refl)).
Defined.

Lemma blocks_repeat_witness :
  let B := build_exact in
  exists p', setJacobians (cam q) (pt_front q) (obs q true) = Some p' /\
             coeff (Hpp p') 0 2 = coeff (Hcc p') 0 2.
Proof.
  intros B.
  destruct (setJacobians (cam q) (pt_front q) (obs q true)) as [p' |] eqn:E;
    [| vm_compute in E; discriminate E].
  exists p'. split; [reflexivity |].
  apply (blocks_repeat exact_ring (cam q) (pt_front q) (obs q true) p' 0 2 E); lia.
Defined.

Import SbaNode.

Lemma indices_ok_one_camera_one_point : indices_ok one_camera_one_point.
Proof. apply indices_ok_addFrame, indices_ok_init. Qed.

Lemma addNode_lookup_witness :
  node_indices (addNode mk init cam_msg) !! 0 = Some 0 /\
  length (nodes (sba (addNode mk init cam_msg))) = 1%nat.
Proof.
  destruct (addNode_lookup mk init cam_msg) as (H1 & _ & H3 & _).
  - vm_compute. reflexivity.
  - split; [exact H1 | exact H3].
Defined.

Lemma addPoint_lookup_witness :
  point_indices (addPoint (@init Qc) point_msg) !! 0 = Some 0 /\
  length (tracks (sba (addPoint (@init Qc) point_msg))) = 1%nat.
Proof.
  destruct (addPoint_lookup (@init Qc) point_msg) as (H1 & _ & H3 & _).
  - vm_compute. reflexivity.
  - split; [exact H1 | exact H3].
Defined.

Lemma addProj_rejects_only_when_empty_witness :
  rosout (addProj one_camera_one_point proj_msg) = [] /\
  sba (addProj (@init Qc) proj_msg) = sba (@init Qc).
Proof.
  split.
  - destruct (addProj_rejects_only_when_empty one_camera_one_point proj_msg
                indices_ok_one_camera_one_point) as [H _].
    + vm_compute. reflexivity.
    + vm_compute. reflexivity.
    + destruct H as [H _]; [discriminate | discriminate |].
      rewrite H. reflexivity.
  - destruct (addProj_rejects_only_when_empty (@init Qc) proj_msg
                indices_ok_init) as [_ H].
    + vm_compute. reflexivity.
    + vm_compute. reflexivity.
    + exact (proj1 (H (or_introl eq_refl))).
Defined.

Lemma addFrame_accepts_all_witness :
  rosout (addFrame mk init frame_unknown_ids) = [] /\
  nprojs (sba (addFrame mk init frame_unknown_ids)) = 2%nat.
Proof.
  destruct (addFrame_accepts_all mk init frame_unknown_ids indices_ok_init)
    as (H1 & _ & _ & H4).
  - cbn. lia.
  - cbn. lia.
  - vm_compute. reflexivity.
  - vm_compute. reflexivity.
  - split; [exact H1 | exact H4].
Defined.

Lemma addProj_known_ids_witness :
  node_indices (addProj one_camera_one_point known_proj_msg) =
    node_indices one_camera_one_point /\
  rosout (addProj one_camera_one_point known_proj_msg) = [].
Proof.
  destruct (addProj_known_ids one_camera_one_point known_proj_msg 0 0)
    as (H1 & _ & H3 & _).
  - vm_compute. reflexivity.
  - vm_compute. reflexivity.
  - vm_compute. split; [discriminate | reflexivity].
  - vm_compute. split; [discriminate | reflexivity].
  - vm_compute. reflexivity.
  - vm_compute. reflexivity.
  - split; [exact H1 | rewrite H3; reflexivity].
Defined.

Import SbaTimer.

Lemma doSBA_projections_figure_witness :
  exists Nodes,
    In (SBA_counts Nodes 1 1)
       (snd (doSBA zero_cost (fun _ => false) one_camera_one_point 0 0)).
Proof.
  destruct (doSBA_projections_figure zero_cost (fun _ => false)
              one_camera_one_point 0 0) as (N & H & _).
  - vm_compute. reflexivity.
  - exists N. exact H.
Defined.

Import FrameDisparity.

Lemma publishFrame_d_positive_witness :
  exists m,
    keypoints (publishFrame (fun _ : unit => tt) kpts2 dtors2 disp3 tt tt) !! 0%nat
      = Some m /\
    SFltb d0 (kd m) = true.
Proof.
  destruct (keypoints (publishFrame (fun _ : unit => tt) kpts2 dtors2 disp3 tt tt) !! 0%nat)
    as [m |] eqn:E; [| vm_compute in E; discriminate E].
  exists m. split; [reflexivity |].
  exact (publishFrame_d_positive (D := spec_float) (fun _ : unit => tt) eq_refl
           kpts2 dtors2 disp3 tt tt 0 m E).
Defined.

Lemma lookup_disp_on_diagonal_witness :
  data disp3 !! 4%nat = Some (lookup_disp disp3 keypoint_a).
Proof.
  replace 4%nat
    with (Z.to_nat (dtoint (pt_y keypoint_a) * (cols disp3 + 1)))
    by (vm_compute; reflexivity).
  apply (lookup_disp_on_diagonal disp3 keypoint_a).
  - vm_compute. split; [discriminate | reflexivity].
  - vm_compute. discriminate.
  - reflexivity.
Defined.

Import Nodelet.

Lemma configCb_valid_witness :
  prefilter_size (fst (configCb config_sent)) = 9 /\
  correlation_window_size (fst (configCb config_sent)) = 15 /\
  disparity_range (fst (configCb config_sent)) = 64 /\
  Z.odd (prefilter_size (fst (configCb config_sent))) = true.
Proof.
  destruct (configCb_valid config_sent) as ((H & _) & _).
  - vm_compute. split; [discriminate | reflexivity].
  - vm_compute. split; [discriminate | reflexivity].
  - vm_compute. split; [discriminate | reflexivity].
  - split; [reflexivity |]. split; [reflexivity |]. split; [reflexivity | exact H].
Defined.
End RunsMore.
